(** * go-blockchain: blocks, transactions and proof-of-stake selection

    A shallow embedding of the three Go files of the package [blockchain]
    (block.go, transaction.go, consensus.go) and the properties of its
    specification that can be stated over it.

    Conventions of the embedding.
    - Go's [int] and [int64] are 64-bit two's-complement integers: a value
      is a [Z], and every arithmetic operation of the source is followed by
      [wrap64].  [rune] is [int32].
    - [[]byte] is [list byte]; a nil slice and an empty slice are both [[]].
      A Go [string] is its byte sequence.
    - A function that can panic returns an [outcome]: either the value it
      returns or the panic it raises.
    - Library routines whose result is not a function of their arguments in
      the source (crypto/rand, ecdsa.Sign, time.Now) or whose code is outside
      the package (sha256.Sum256, encoding/gob, time.Time.String) are
      parameters of the functions that call them.  Where a property rests on
      the hash having no collisions, that is the hypothesis that the
      parameter is injective. *)

From Stdlib Require Import ZArith List Lia Bool.
From Stdlib Require Import Strings.Byte.
From stdpp Require Import gmap strings list fin_maps.

Local Open Scope Z_scope.

(** ** Machine integers and bytes *)

Definition wrap64 (z : Z) : Z := (z + 2 ^ 63) mod 2 ^ 64 - 2 ^ 63.
Definition wrap32 (z : Z) : Z := (z + 2 ^ 31) mod 2 ^ 32 - 2 ^ 31.

Definition minInt64 : Z := - 2 ^ 63.
Definition maxInt64 : Z := 2 ^ 63 - 1.
Definition inInt64 (z : Z) : Prop := minInt64 <= z <= maxInt64.

Definition byte_of_Z (z : Z) : byte :=
  match Byte.of_N (Z.to_N (z mod 256)) with
  | Some b => b
  | None => Byte.x00
  end.

Definition Z_of_byte (b : byte) : Z := Z.of_N (Byte.to_N b).

(** ** Panics *)

(** Go's [error] values are carried by their message. *)
Definition error : Type := string.

Inductive panic : Type :=
| GoPanic (e : error)             (* panic(err) *)
| LogPanic (e : error)            (* log.Panic(err) *)
| IndexOutOfRange                 (* s[0] on an empty slice *)
| RandIntNonPositive.             (* crypto/rand: argument to Int is <= 0 *)

Inductive outcome (A : Type) : Type :=
| Returned (a : A)
| Panicked (p : panic).
Arguments Returned {A} a.
Arguments Panicked {A} p.

#[global] Instance panic_eq_dec : EqDecision panic.
Proof. solve_decision. Defined.

#[global] Instance outcome_eq_dec {A : Type} `{EqDecision A} :
  EqDecision (outcome A).
Proof. solve_decision. Defined.

Definition bind {A B : Type} (o : outcome A) (k : A -> outcome B) : outcome B :=
  match o with
  | Returned a => k a
  | Panicked p => Panicked p
  end.

Notation "'let*' x ':=' o 'in' k" := (bind o (fun x => k))
  (at level 10, x name, o at level 100, k at level 200).

(** ** consensus.go *)

Module POSValidator.
Record t : Type := Build { PublicKey : list byte; Stake : Z }.
End POSValidator.
Abbreviation POSValidator := POSValidator.t.

(** [range validators] visits every entry of the map once, in an order the
    language leaves unspecified and that may differ between two loops. *)
Definition ranges (validators : gmap string POSValidator)
    (order : list POSValidator) : Prop :=
  order ≡ₚ (map_to_list validators).*2.

(** The first loop: [totalStake += validator.Stake]. *)
Definition totalStake (order : list POSValidator) : Z :=
  fold_left (fun acc v => wrap64 (acc + POSValidator.Stake v)) order 0.

(** The sum of the stakes as a mathematical integer. *)
Definition sumStake (order : list POSValidator) : Z :=
  foldr (fun v acc => POSValidator.Stake v + acc) 0 order.

(** The second loop: [random -= int64(validator.Stake)] and the test
    [random <= 0]; falling out of the loop reaches [log.Panic]. *)
Fixpoint selectLoop (random : Z) (order : list POSValidator) : outcome string :=
  match order with
  | [] => Panicked (LogPanic "Unable to find a validator")
  | validator :: rest =>
      let random := wrap64 (random - POSValidator.Stake validator) in
      if random <=? 0
      then Returned (String.string_of_list_byte (POSValidator.PublicKey validator))
      else selectLoop random rest
  end.

(** [randInt max] is [rand.Int(rand.Reader, max)] for [max > 0]: the number
    drawn or the error of the entropy source.  [order1] and [order2] are the
    orders in which the two [range] loops visit the map. *)
Definition ProofOfStake (randInt : Z -> error + Z)
    (order1 order2 : list POSValidator) : outcome string :=
  let total := totalStake order1 in
  if total <=? 0 then Panicked RandIntNonPositive
  else match randInt total with
       | inl err => Panicked (LogPanic err)
       | inr random => selectLoop random order2
       end.

(** The draws of [[0, total)] at which the loop returns the key [pk]. *)
Definition winningDraws (order : list POSValidator) (pk : list byte) : list Z :=
  filter (fun r => selectLoop r order = Returned (String.string_of_list_byte pk))
         (seqZ 0 (totalStake order)).

(** The example of the comment above [ProofOfStake]: A stakes 70 and B 30. *)
Definition validatorA : POSValidator := POSValidator.Build [Byte.x41] 70.
Definition validatorB : POSValidator := POSValidator.Build [Byte.x42] 30.
Definition registryAB : gmap string POSValidator :=
  <["A"%string := validatorA]> (<["B"%string := validatorB]> ∅).

(** A registry in which Z stakes nothing and A stakes 5. *)
Definition validatorZ : POSValidator := POSValidator.Build [Byte.x5a] 0.
Definition validatorA5 : POSValidator := POSValidator.Build [Byte.x41] 5.

(** ** transaction.go *)

Module TxInput.
Record t : Type := Build { Signature : list byte; PublicKey : list byte }.
End TxInput.
Abbreviation TxInput := TxInput.t.

Module TxOutput.
Record t : Type := Build { Value : Z; PublicKey : list byte }.
End TxOutput.
Abbreviation TxOutput := TxOutput.t.

Module Transaction.
Record t : Type :=
  Build { ID : list byte; Input : list TxInput; Output : list TxOutput }.
End Transaction.
Abbreviation Transaction := Transaction.t.

(** [ecdsa.PrivateKey]: the public point [(X, Y)] and the secret scalar [D]. *)
Module PrivateKey.
Record t : Type := Build { X : Z; Y : Z; D : Z }.
End PrivateKey.
Abbreviation PrivateKey := PrivateKey.t.

(** [bytes.Join(s, sep)]. *)
Fixpoint bytesJoin (s : list (list byte)) (sep : list byte) : list byte :=
  match s with
  | [] => []
  | [x] => x
  | x :: rest => x ++ sep ++ bytesJoin rest sep
  end.

(** [Bytes()] of a [big.Int]: the big-endian bytes of the absolute value, without
    leading zeros (none at all for 0). *)
Fixpoint bigEndian (fuel : nat) (n : Z) (acc : list byte) : list byte :=
  match fuel with
  | O => acc
  | S fuel =>
      if n <=? 0 then acc
      else bigEndian fuel (n / 256) (byte_of_Z (n mod 256) :: acc)
  end.

Definition bigBytes (x : Z) : list byte :=
  bigEndian (S (Z.to_nat (Z.log2 (Z.abs x)))) (Z.abs x) [].

(** [string(r)] for a rune [r], as bytes: the UTF-8 encoding of the code
    point, and that of U+FFFD for a value that is not a code point
    (negative, a surrogate half, or above U+10FFFF). *)
Definition runeError : Z := 0xFFFD.

Definition encodeRune (r : Z) : list byte :=
  if (0 <=? r) && (r <=? 0x7F) then
    [byte_of_Z r]
  else if (0 <=? r) && (r <=? 0x7FF) then
    [byte_of_Z (Z.lor 0xC0 (Z.shiftr r 6));
     byte_of_Z (Z.lor 0x80 (Z.land r 0x3F))]
  else
    let r := if (r <? 0) || (0x10FFFF <? r) || ((0xD800 <=? r) && (r <=? 0xDFFF))
             then runeError else r in
    if r <=? 0xFFFF then
      [byte_of_Z (Z.lor 0xE0 (Z.shiftr r 12));
       byte_of_Z (Z.lor 0x80 (Z.land (Z.shiftr r 6) 0x3F));
       byte_of_Z (Z.lor 0x80 (Z.land r 0x3F))]
    else
      [byte_of_Z (Z.lor 0xF0 (Z.shiftr r 18));
       byte_of_Z (Z.lor 0x80 (Z.land (Z.shiftr r 12) 0x3F));
       byte_of_Z (Z.lor 0x80 (Z.land (Z.shiftr r 6) 0x3F));
       byte_of_Z (Z.lor 0x80 (Z.land r 0x3F))].

(** [[]byte(string(rune(v)))] for an [int] [v]. *)
Definition amountBytes (v : Z) : list byte := encodeRune (wrap32 v).

(** What the specification asks for instead: the amount as 8 big-endian
    bytes. *)
Definition bigEndian64 (v : Z) : list byte :=
  map (fun i => byte_of_Z (Z.shiftr v (8 * i))) [7; 6; 5; 4; 3; 2; 1; 0].

(** The bytes hashed for a transfer of [amount] from [privateKey] to
    [recipient]. *)
Definition transferData (privateKey : PrivateKey) (recipient : list byte)
    (amount : Z) : list byte :=
  bigBytes (PrivateKey.X privateKey) ++ recipient ++ amountBytes amount.

(** The transaction [NewTransaction] hashes: one input without signature,
    one output. *)
Definition unsignedTransfer (privateKey : PrivateKey) (recipient : list byte)
    (amount : Z) : Transaction :=
  Transaction.Build []
    [TxInput.Build [] (bigBytes (PrivateKey.X privateKey))]
    [TxOutput.Build amount recipient].

Section Hashing.
(** [sha256.Sum256], as a slice. *)
Variable sha256 : list byte -> list byte.

(** The bytes [hashTransaction] hashes ([combinedData]). *)
Definition combinedData (tx : Transaction) : outcome (list byte) :=
  match Transaction.Input tx, Transaction.Output tx with
  | txIn :: _, txOut :: _ =>
      Returned (bytesJoin [TxInput.PublicKey txIn;
                           TxOutput.PublicKey txOut;
                           amountBytes (TxOutput.Value txOut)] [])
  | _, _ => Panicked IndexOutOfRange
  end.

Definition hashTransaction (tx : Transaction) : outcome (list byte) :=
  let* data := combinedData tx in Returned (sha256 data).

(** [tx.ID = id]. *)
Definition setID (tx : Transaction) (id : list byte) : Transaction :=
  Transaction.Build id (Transaction.Input tx) (Transaction.Output tx).

(** [tx.Input[0].Signature = signature]. *)
Definition setInput0Signature (tx : Transaction) (signature : list byte)
    : outcome Transaction :=
  match Transaction.Input tx with
  | txIn :: rest =>
      Returned (Transaction.Build (Transaction.ID tx)
                  (TxInput.Build signature (TxInput.PublicKey txIn) :: rest)
                  (Transaction.Output tx))
  | [] => Panicked IndexOutOfRange
  end.

(** [ecdsa.Sign(rand.Reader, &privateKey, hash)]: the pair [(r, s)] or an
    error. *)
Variable ecdsaSign : PrivateKey -> list byte -> error + Z * Z.

Definition NewTransaction (privateKey : PrivateKey) (recipient : list byte)
    (amount : Z) : outcome Transaction :=
  let txIn := TxInput.Build [] (bigBytes (PrivateKey.X privateKey)) in
  let txOut := TxOutput.Build amount recipient in
  let tx := Transaction.Build [] [txIn] [txOut] in
  let* id := hashTransaction tx in
  let tx := setID tx id in
  match ecdsaSign privateKey (Transaction.ID tx) with
  | inl err => Panicked (LogPanic err)
  | inr (r, s) =>
      let signature := bigBytes r ++ bigBytes s in
      setInput0Signature tx signature
  end.
End Hashing.

(** ** block.go *)

Module Block.
Record t (Time : Type) : Type :=
  Build { Timestamp : Time;
          Transactions : list Transaction;
          PrevBlockHash : list byte;
          Hash : list byte;
          Validator : list byte;
          Nonce : Z }.
Arguments Build {Time}.
Arguments Timestamp {Time}.
Arguments Transactions {Time}.
Arguments PrevBlockHash {Time}.
Arguments Hash {Time}.
Arguments Validator {Time}.
Arguments Nonce {Time}.
End Block.
Abbreviation Block := Block.t.

Section BlockHash.
(** [time.Time] and its [String] method, as bytes. *)
Context {Time : Type}.
Variable timeString : Time -> list byte.
Variable sha256 : list byte -> list byte.
(** [calculateHash] calls [tx.Hash()], a method transaction.go does not
    declare: it is a parameter here. *)
Variable txHash : Transaction -> list byte.

(** The loop [txHashes = append(txHashes, tx.Hash()...)]. *)
Definition txHashes (transactions : list Transaction) : list byte :=
  fold_left (fun acc tx => acc ++ txHash tx) transactions [].

(** The bytes [calculateHash] hashes. *)
Definition blockPreimage (b : Block Time) : list byte :=
  bytesJoin [Block.PrevBlockHash b;
             txHashes (Block.Transactions b);
             timeString (Block.Timestamp b)] [].

Definition calculateHash (b : Block Time) : list byte :=
  sha256 (blockPreimage b).

(** [now] is the value of [time.Now()]. *)
Definition NewBlock (now : Time) (transactions : list Transaction)
    (prevBlockHash validator : list byte) : Block Time :=
  let block := Block.Build now transactions prevBlockHash [] validator 0 in
  Block.Build (Block.Timestamp block) (Block.Transactions block)
              (Block.PrevBlockHash block) (calculateHash block)
              (Block.Validator block) (Block.Nonce block).
End BlockHash.

(** Modelled from the spec: the method [Hash] of [Transaction], which
    [calculateHash] calls and the package does not define.  The
    specification has the block hash cover "each transaction's id in
    order", so [Hash] returns the transaction's [ID]. *)
Definition Hash (tx : Transaction) : list byte := Transaction.ID tx.

(** ** Serialization (encoding/gob) *)

(** What the package uses of encoding/gob for a type [A]:
    [gob.NewEncoder(&buf).Encode(&a)] followed by [buf.Bytes()], and
    [gob.NewDecoder(bytes.NewReader(data)).Decode(&a)] into a zero [a]. *)
Class Gob (A : Type) : Type :=
  { gobEncode : A -> error + list byte;
    gobDecode : list byte -> error + A }.

(** The law encoding/gob is used for: every value of the Go type is encoded,
    and what was encoded decodes to the same value. *)
Record GobLaw {A : Type} (G : Gob A) (goValue : A -> Prop) : Prop :=
  { gob_encodes : forall a, goValue a -> exists data, gobEncode a = inr data;
    gob_decodes : forall a data, gobEncode a = inr data -> gobDecode data = inr a }.

Section Serialization.
Context {Time : Type}.
Context {gobBlock : Gob (Block Time)} {gobTransaction : Gob Transaction}.

Definition Block_Serialize (b : Block Time) : outcome (list byte) :=
  match gobEncode b with
  | inl err => Panicked (GoPanic err)
  | inr result => Returned result
  end.

Definition DeserializeBlock (data : list byte) : outcome (Block Time) :=
  match gobDecode data with
  | inl err => Panicked (GoPanic err)
  | inr block => Returned block
  end.

Definition Transaction_Serialize (tx : Transaction) : outcome (list byte) :=
  match gobEncode tx with
  | inl err => Panicked (LogPanic err)
  | inr encoded => Returned encoded
  end.

Definition DeserializeTransaction (data : list byte) : outcome Transaction :=
  match gobDecode data with
  | inl err => Panicked (LogPanic err)
  | inr transaction => Returned transaction
  end.
End Serialization.

(** ** A wire format

    An instance of [Gob] to run the serialization functions on: values are
    laid out the way gob lays out values (an unsigned integer below 128 is one
    byte, a larger one is the negated count of its big-endian bytes followed
    by them; a signed integer is an unsigned one with the sign in bit 0; a
    slice is its length followed by its elements; a struct is its fields in
    order), without gob's type descriptors. *)
Module Wire.
Definition parser (A : Type) : Type := list byte -> option (A * list byte).

Definition fromBigEndian (bs : list byte) : Z :=
  fold_left (fun a b => a * 256 + Z_of_byte b) bs 0.

Definition putUint (n : Z) : option (list byte) :=
  if (n <? 0) || (2 ^ 64 <=? n) then None
  else if n <? 128 then Some [byte_of_Z n]
  else let bs := bigBytes n in
       Some (byte_of_Z (256 - Z.of_nat (length bs)) :: bs).

Definition getUint : parser Z := fun data =>
  match data with
  | [] => None
  | b :: rest =>
      let v := Z_of_byte b in
      if v <? 128 then Some (v, rest)
      else let k := Z.to_nat (256 - v) in
           if (8 <? k)%nat || (length rest <? k)%nat then None
           else Some (fromBigEndian (take k rest), drop k rest)
  end.

Definition putInt (i : Z) : option (list byte) :=
  putUint (if i <? 0 then 2 * (- i - 1) + 1 else 2 * i).

Definition getInt : parser Z := fun data =>
  '(u, rest) ← getUint data;
  Some (if Z.odd u then - (u / 2) - 1 else u / 2, rest).

Definition putBytes (bs : list byte) : option (list byte) :=
  n ← putUint (Z.of_nat (length bs));
  Some (n ++ bs).

Definition getBytes : parser (list byte) := fun data =>
  '(n, rest) ← getUint data;
  let k := Z.to_nat n in
  if (length rest <? k)%nat then None
  else Some (take k rest, drop k rest).

Section Slices.
Context {A : Type}.
Variable put : A -> option (list byte).
Variable get : parser A.

Fixpoint putAll (l : list A) : option (list byte) :=
  match l with
  | [] => Some []
  | a :: l =>
      x ← put a;
      xs ← putAll l;
      Some (x ++ xs)
  end.

Fixpoint getN (n : nat) : parser (list A) := fun data =>
  match n with
  | O => Some ([], data)
  | S n =>
      '(a, rest) ← get data;
      '(l, rest) ← getN n rest;
      Some (a :: l, rest)
  end.

Definition putSlice (l : list A) : option (list byte) :=
  n ← putUint (Z.of_nat (length l));
  xs ← putAll l;
  Some (n ++ xs).

Definition getSlice : parser (list A) := fun data =>
  '(n, rest) ← getUint data;
  getN (Z.to_nat n) rest.
End Slices.

Definition putTxInput (i : TxInput) : option (list byte) :=
  s ← putBytes (TxInput.Signature i);
  p ← putBytes (TxInput.PublicKey i);
  Some (s ++ p).

Definition getTxInput : parser TxInput := fun data =>
  '(s, rest) ← getBytes data;
  '(p, rest) ← getBytes rest;
  Some (TxInput.Build s p, rest).

Definition putTxOutput (o : TxOutput) : option (list byte) :=
  v ← putInt (TxOutput.Value o);
  p ← putBytes (TxOutput.PublicKey o);
  Some (v ++ p).

Definition getTxOutput : parser TxOutput := fun data =>
  '(v, rest) ← getInt data;
  '(p, rest) ← getBytes rest;
  Some (TxOutput.Build v p, rest).

Definition putTransaction (tx : Transaction) : option (list byte) :=
  id ← putBytes (Transaction.ID tx);
  ins ← putSlice putTxInput (Transaction.Input tx);
  outs ← putSlice putTxOutput (Transaction.Output tx);
  Some (id ++ ins ++ outs).

Definition getTransaction : parser Transaction := fun data =>
  '(id, rest) ← getBytes data;
  '(ins, rest) ← getSlice getTxInput rest;
  '(outs, rest) ← getSlice getTxOutput rest;
  Some (Transaction.Build id ins outs, rest).

(** A block whose timestamp is a number of nanoseconds. *)
Definition putBlock (b : Block Z) : option (list byte) :=
  t ← putInt (Block.Timestamp b);
  txs ← putSlice putTransaction (Block.Transactions b);
  p ← putBytes (Block.PrevBlockHash b);
  h ← putBytes (Block.Hash b);
  v ← putBytes (Block.Validator b);
  n ← putInt (Block.Nonce b);
  Some (t ++ txs ++ p ++ h ++ v ++ n).

Definition getBlock : parser (Block Z) := fun data =>
  '(t, rest) ← getInt data;
  '(txs, rest) ← getSlice getTransaction rest;
  '(p, rest) ← getBytes rest;
  '(h, rest) ← getBytes rest;
  '(v, rest) ← getBytes rest;
  '(n, rest) ← getInt rest;
  Some (Block.Build t txs p h v n, rest).

Definition encodeWith {A : Type} (put : A -> option (list byte)) (a : A)
    : error + list byte :=
  match put a with
  | Some data => inr data
  | None => inl "gob: value out of range"%string
  end.

(** An empty input is [io.EOF]; an input that stops early, or whose counts
    do not fit, is [io.ErrUnexpectedEOF]. Bytes after the value are left
    unread. *)
Definition decodeWith {A : Type} (get : parser A) (data : list byte)
    : error + A :=
  match get data with
  | Some (a, _) => inr a
  | None => inl (match data with
                 | [] => "EOF"
                 | _ => "unexpected EOF"
                 end)%string
  end.

#[export] Instance gobTransaction : Gob Transaction :=
  {| gobEncode := encodeWith putTransaction;
     gobDecode := decodeWith getTransaction |}.

#[export] Instance gobBlock : Gob (Block Z) :=
  {| gobEncode := encodeWith putBlock;
     gobDecode := decodeWith getBlock |}.
End Wire.

(** The values of the Go types: an [int] is in range and the length of a
    slice is an [int]. *)
Definition goLen {A : Type} (l : list A) : Prop :=
  Z.of_nat (length l) <= maxInt64.

Definition goTxInput (i : TxInput) : Prop :=
  goLen (TxInput.Signature i) /\ goLen (TxInput.PublicKey i).

Definition goTxOutput (o : TxOutput) : Prop :=
  inInt64 (TxOutput.Value o) /\ goLen (TxOutput.PublicKey o).

Definition goTransaction (tx : Transaction) : Prop :=
  goLen (Transaction.ID tx) /\
  (goLen (Transaction.Input tx) /\ Forall goTxInput (Transaction.Input tx)) /\
  (goLen (Transaction.Output tx) /\ Forall goTxOutput (Transaction.Output tx)).

Definition goBlock (b : Block Z) : Prop :=
  inInt64 (Block.Timestamp b) /\
  (goLen (Block.Transactions b) /\ Forall goTransaction (Block.Transactions b)) /\
  goLen (Block.PrevBlockHash b) /\ goLen (Block.Hash b) /\
  goLen (Block.Validator b) /\ inInt64 (Block.Nonce b).

(** A transaction with two inputs and two outputs. *)
Definition tx22 : Transaction :=
  Transaction.Build [Byte.x01; Byte.x02]
    [TxInput.Build [Byte.x0a] [Byte.x0b]; TxInput.Build [] [Byte.x0c; Byte.x0d]]
    [TxOutput.Build 10 [Byte.x0e]; TxOutput.Build (-300) [Byte.x0f]].


(** ** Stand-ins for the library routines in examples *)

(** An injective function in the place of the hash, for the statements that
    assume the hash has no collisions. *)
Definition idHash (data : list byte) : list byte := data.

(** A signer that rejects the key, and one that signs with [(r, s) = (1, 2)]. *)
Definition signFails (_ : PrivateKey) (_ : list byte) : error + Z * Z :=
  inl "invalid key"%string.
Definition signOnes (_ : PrivateKey) (_ : list byte) : error + Z * Z :=
  inr (1, 2).

Definition keyS : PrivateKey := PrivateKey.Build 83 84 7.
Definition recipientR : list byte := [Byte.x52].

(** Two transactions that differ in their second output only. *)
Definition txPayA : Transaction :=
  Transaction.Build [] [TxInput.Build [] [Byte.x53]]
    [TxOutput.Build 10 [Byte.x52]; TxOutput.Build 1 [Byte.x51]].
Definition txPayB : Transaction :=
  Transaction.Build [] [TxInput.Build [] [Byte.x53]]
    [TxOutput.Build 10 [Byte.x52]; TxOutput.Build 999 [Byte.x50]].

(** A clock counting seconds, written out as 8 bytes, in the place of
    [time.Time] and its [String]. *)
Definition secondsText (t : Z) : list byte := bigEndian64 t.

(** Two blocks assembled at the same instant over the same predecessor with
    the same (empty) transaction list, proposed by different validators. *)
Definition blockByV : Block Z :=
  NewBlock secondsText idHash Hash 1700000000 [] [Byte.x50] [Byte.x56].
Definition blockByW : Block Z :=
  NewBlock secondsText idHash Hash 1700000000 [] [Byte.x50] [Byte.x57].

(** Two transactions with distinct ids of the same width. *)
Definition txOne : Transaction :=
  Transaction.Build [Byte.x01; Byte.x01] [TxInput.Build [] [Byte.x53]]
    [TxOutput.Build 10 [Byte.x52]].
Definition txTwo : Transaction :=
  Transaction.Build [Byte.x02; Byte.x02] [TxInput.Build [] [Byte.x52]]
    [TxOutput.Build 4 [Byte.x53]].

(** [b] with its transaction list replaced. *)
Definition withTransactions {Time : Type} (b : Block Time)
    (transactions : list Transaction) : Block Time :=
  Block.Build (Block.Timestamp b) transactions (Block.PrevBlockHash b)
              (Block.Hash b) (Block.Validator b) (Block.Nonce b).

(** A pair of a writer and a parser agree when the parser reads back what
    the writer wrote and leaves the bytes that follow. *)
Definition sound {A : Type} (put : A -> option (list byte))
    (get : Wire.parser A) : Prop :=
  forall a bs rest, put a = Some bs -> get (bs ++ rest) = Some (a, rest).

(** A second key with the same [X] as [keyS], and a signer that returns
    another pair. *)
Definition keyS' : PrivateKey := PrivateKey.Build 83 99 8.
Definition signTwos (_ : PrivateKey) (_ : list byte) : error + Z * Z :=
  inr (3, 4).

(** A signer that returns the pair [(r, s)]. *)
Definition signWith (r s : Z) (_ : PrivateKey) (_ : list byte) : error + Z * Z :=
  inr (r, s).

(** A byte string that [Bytes()] can return: no leading zero. *)
Definition noLeadingZero (l : list byte) : Prop :=
  match l with
  | [] => True
  | b :: _ => b <> Byte.x00
  end.

(** [b] with another previous hash. *)
Definition withPrevBlockHash {Time : Type} (b : Block Time)
    (prevBlockHash : list byte) : Block Time :=
  Block.Build (Block.Timestamp b) (Block.Transactions b) prevBlockHash
              (Block.Hash b) (Block.Validator b) (Block.Nonce b).

(** The code point whose UTF-8 text stands for the amount [v] in the hashed
    bytes: [v] cut to 32 bits, and U+FFFD when that is not a code point. *)
Definition notCodePoint (r : Z) : bool :=
  (r <? 0) || (0x10FFFF <? r) || ((0xD800 <=? r) && (r <=? 0xDFFF)).

Definition hashedRune (v : Z) : Z :=
  let r := wrap32 v in if notCodePoint r then runeError else r.

(** A registry whose only validator has an empty public key, and one whose
    two stakes add up to 2^63, beyond the largest [int]. *)
Definition validatorE : POSValidator := POSValidator.Build [] 1.
Definition registryE : gmap string POSValidator :=
  <["E"%string := validatorE]> ∅.
Definition validatorP : POSValidator := POSValidator.Build [Byte.x50] (2 ^ 62).
Definition validatorQ : POSValidator := POSValidator.Build [Byte.x51] (2 ^ 62).
Definition registryPQ : gmap string POSValidator :=
  <["P"%string := validatorP]> (<["Q"%string := validatorQ]> ∅).


(** * Properties *)

(** ** Machine integers *)

Lemma wrap64_range z : minInt64 <= wrap64 z <= maxInt64.
Proof.
  unfold wrap64, minInt64, maxInt64.
  pose proof (Z.mod_pos_bound (z + 2 ^ 63) (2 ^ 64) eq_refl). lia.
Qed.

Lemma wrap64_id z : inInt64 z -> wrap64 z = z.
Proof.
  unfold inInt64, minInt64, maxInt64, wrap64. intros Hz.
  rewrite Z.mod_small; lia.
Qed.

Lemma wrap64_add_l a b : wrap64 (wrap64 a + b) = wrap64 (a + b).
Proof.
  unfold wrap64. f_equal.
  replace ((a + 2 ^ 63) mod 2 ^ 64 - 2 ^ 63 + b + 2 ^ 63)
    with ((a + 2 ^ 63) mod 2 ^ 64 + b) by ring.
  rewrite Z.add_mod_idemp_l by discriminate. f_equal. ring.
Qed.

Lemma wrap64_sub_l a b : wrap64 (wrap64 a - b) = wrap64 (a - b).
Proof. unfold Z.sub. apply wrap64_add_l. Qed.

Lemma wrap64_sub_r a b : wrap64 (a - wrap64 b) = wrap64 (a - b).
Proof.
  unfold wrap64. f_equal.
  replace (a - ((b + 2 ^ 63) mod 2 ^ 64 - 2 ^ 63) + 2 ^ 63)
    with (a + 2 ^ 64 - (b + 2 ^ 63) mod 2 ^ 64) by lia.
  rewrite Zminus_mod_idemp_r.
  f_equal. lia.
Qed.

(** ** consensus.go *)

Lemma totalStake_from acc order :
  fold_left (fun acc v => wrap64 (acc + POSValidator.Stake v)) order (wrap64 acc)
  = wrap64 (acc + sumStake order).
Proof.
  revert acc. induction order as [|v order IH]; intros acc; simpl.
  - f_equal. lia.
  - rewrite wrap64_add_l, IH. f_equal. lia.
Qed.

Lemma totalStake_sum order : totalStake order = wrap64 (sumStake order).
Proof.
  unfold totalStake. change 0 with (wrap64 0) at 1.
  now rewrite totalStake_from.
Qed.

Lemma sumStake_perm order1 order2 :
  order1 ≡ₚ order2 -> sumStake order1 = sumStake order2.
Proof.
  induction 1; simpl; lia.
Qed.

(** The total does not depend on the order in which the map is visited. *)
Lemma totalStake_perm order1 order2 :
  order1 ≡ₚ order2 -> totalStake order1 = totalStake order2.
Proof.
  intros H. rewrite !totalStake_sum. f_equal. now apply sumStake_perm.
Qed.

(** Without overflow the total is the sum of the stakes. *)
Lemma totalStake_exact order :
  inInt64 (sumStake order) -> totalStake order = sumStake order.
Proof. intros H. rewrite totalStake_sum. now apply wrap64_id. Qed.

(** The loop invariant: as long as what remains of the draw after the whole
    list is negative, the loop returns at one of its elements. *)
Lemma selectLoop_returns order : forall random,
  inInt64 random -> 0 <= random ->
  wrap64 (random - sumStake order) < 0 ->
  exists v : POSValidator, v ∈ order /\
    selectLoop random order
    = Returned (String.string_of_list_byte (POSValidator.PublicKey v)).
Proof.
  induction order as [|v order IH]; intros random Hin Hpos Hneg; simpl in *.
  - rewrite Z.sub_0_r, wrap64_id in Hneg by assumption. lia.
  - destruct (Z.leb_spec (wrap64 (random - POSValidator.Stake v)) 0) as [Hle|Hgt].
    + exists v. split; [left | reflexivity].
    + destruct (IH (wrap64 (random - POSValidator.Stake v))) as (w & Hw & Hsel).
      * apply wrap64_range.
      * lia.
      * rewrite wrap64_sub_l.
        replace (random - POSValidator.Stake v - sumStake order)
          with (random - (POSValidator.Stake v + sumStake order)) by ring.
        exact Hneg.
      * exists w. split; [now right | exact Hsel].
Qed.

Lemma string_of_list_byte_nil l :
  String.string_of_list_byte l = ""%string -> l = [].
Proof. destruct l; [reflexivity | discriminate]. Qed.

Lemma ranges_lookup (validators : gmap string POSValidator)
    (order : list POSValidator) (v : POSValidator) :
  ranges validators order -> v ∈ order ->
  exists key, validators !! key = Some v.
Proof.
  unfold ranges. intros Hperm Hv. rewrite Hperm in Hv.
  apply list_elem_of_fmap in Hv as ([key w] & -> & Hkw).
  exists key. now apply elem_of_map_to_list in Hkw.
Qed.

Lemma ranges_registryAB : ranges registryAB [validatorA; validatorB].
Proof.
  unfold ranges, registryAB.
  rewrite map_to_list_insert by (rewrite lookup_insert_ne; done).
  rewrite map_to_list_insert, map_to_list_empty by done.
  reflexivity.
Qed.

(** C3, refuted as stated: a snapshot whose only validator has an empty
    public key and stake 1 has total 1, and at the draw 0 [ProofOfStake]
    returns the empty string, the key of that validator; and a snapshot
    whose stakes add up to 2^63 has a positive sum, but the total the code
    computes wraps to a negative number and [rand.Int] panics. *)
Lemma ProofOfStake_empty_key_returned :
  (ranges registryE [validatorE] /\
   0 < totalStake [validatorE] /\
   ProofOfStake (fun _ => inr 0) [validatorE] [validatorE]
   = Returned ""%string) /\
  (ranges registryPQ [validatorP; validatorQ] /\
   0 < sumStake [validatorP; validatorQ] /\
   ProofOfStake (fun _ => inr 0) [validatorP; validatorQ]
                [validatorP; validatorQ]
   = Panicked RandIntNonPositive).
Proof.
  split; (split; [|split; reflexivity]); unfold ranges.
  - unfold registryE.
    now rewrite map_to_list_insert, map_to_list_empty by done.
  - unfold registryPQ.
    rewrite map_to_list_insert by (rewrite lookup_insert_ne; done).
    now rewrite map_to_list_insert, map_to_list_empty by done.
Qed.

(** C3, amended. For a snapshot whose total stake, as the first loop
    computes it, is positive and a draw [r] in [[0, total)], whatever the
    orders in which the two loops visit the map, [ProofOfStake] returns from
    inside the selection loop: its result is the public key of a validator
    of the snapshot, and so the empty string exactly when that validator's
    public key is empty; it is no panic (the "Unable to find a validator"
    branch is not reached). *)
Theorem ProofOfStake_selects_member
    (validators : gmap string POSValidator) (randInt : Z -> error + Z)
    (order1 order2 : list POSValidator) (r : Z) :
  ranges validators order1 -> ranges validators order2 ->
  0 < totalStake order1 ->
  randInt (totalStake order1) = inr r -> 0 <= r < totalStake order1 ->
  (exists (key : string) (v : POSValidator),
      validators !! key = Some v /\
      ProofOfStake randInt order1 order2
      = Returned (String.string_of_list_byte (POSValidator.PublicKey v)) /\
      (ProofOfStake randInt order1 order2 = Returned ""%string
       <-> POSValidator.PublicKey v = [])) /\
  (forall p, ProofOfStake randInt order1 order2 <> Panicked p).
Proof.
  intros H1 H2 Htotal Hdraw Hr.
  assert (Hsame : totalStake order2 = totalStake order1).
  { apply totalStake_perm. unfold ranges in *. now rewrite H1, H2. }
  pose proof (wrap64_range (sumStake order1)) as Hrange.
  rewrite <- totalStake_sum in Hrange.
  assert (Hrun : ProofOfStake randInt order1 order2 = selectLoop r order2).
  { unfold ProofOfStake. destruct (Z.leb_spec (totalStake order1) 0); [lia|].
    now rewrite Hdraw. }
  destruct (selectLoop_returns order2 r) as (v & Hv & Hsel).
  - unfold inInt64, minInt64, maxInt64 in *. lia.
  - lia.
  - rewrite <- wrap64_sub_r, <- totalStake_sum, Hsame, wrap64_id.
    + lia.
    + unfold inInt64, minInt64, maxInt64 in *. lia.
  - destruct (ranges_lookup validators order2 v H2 Hv) as [key Hkey].
    rewrite Hrun, Hsel. split; [|discriminate].
    exists key, v. split; [exact Hkey|]. split; [reflexivity|]. split.
    + intros [= Hempty]. now apply string_of_list_byte_nil.
    + now intros ->.
Qed.

Lemma ProofOfStake_selects_member_witness :
  (exists (key : string) (v : POSValidator),
      registryAB !! key = Some v /\
      ProofOfStake (fun _ => inr 45) [validatorA; validatorB]
                   [validatorA; validatorB]
      = Returned (String.string_of_list_byte (POSValidator.PublicKey v)) /\
      (ProofOfStake (fun _ => inr 45) [validatorA; validatorB]
                    [validatorA; validatorB] = Returned ""%string
       <-> POSValidator.PublicKey v = [])) /\
  (forall p,
      ProofOfStake (fun _ => inr 45) [validatorA; validatorB]
                   [validatorA; validatorB] <> Panicked p).
Proof.
  apply (ProofOfStake_selects_member registryAB (fun _ => inr 45)
           [validatorA; validatorB] [validatorA; validatorB] 45).
  - exact ranges_registryAB.
  - exact ranges_registryAB.
  - reflexivity.
  - reflexivity.
  - split; [discriminate | reflexivity].
Defined.


(** The test of the loop is [random <= 0]: a validator that stakes nothing
    and is visited first is returned at the draw 0. *)
Lemma selectLoop_zero_stake_first (v : POSValidator) (rest : list POSValidator) :
  POSValidator.Stake v = 0 ->
  selectLoop 0 (v :: rest)
  = Returned (String.string_of_list_byte (POSValidator.PublicKey v)).
Proof. intros Hv. simpl. now rewrite Hv. Qed.

(** The first validator visited is returned at every draw up to its stake,
    the draw equal to the stake included. *)
Lemma selectLoop_first_upto_stake (v : POSValidator) (rest : list POSValidator)
    (r : Z) :
  inInt64 (POSValidator.Stake v) -> 0 <= r <= POSValidator.Stake v ->
  selectLoop r (v :: rest)
  = Returned (String.string_of_list_byte (POSValidator.PublicKey v)).
Proof.
  unfold inInt64, minInt64, maxInt64. intros Hin Hr. simpl.
  rewrite wrap64_id by (unfold inInt64, minInt64, maxInt64; lia).
  destruct (Z.leb_spec (r - POSValidator.Stake v) 0); [reflexivity | lia].
Qed.

(** Which draws return which validator, for stakes that are not negative
    and do not overflow: the validator whose cumulative stake is the first
    to reach the draw.  Together with the previous lemma: the first
    validator holds the draws [0 .. s1], one more than its stake, and a
    later one the draws [c + 1 .. c + s] after the cumulative stake [c] of
    those before it. *)
Lemma selectLoop_cumulative (pre : list POSValidator) (v : POSValidator)
    (post : list POSValidator) : forall r : Z,
  Forall (fun a => 0 <= POSValidator.Stake a) pre ->
  0 <= POSValidator.Stake v <= maxInt64 -> inInt64 r ->
  sumStake pre < r <= sumStake pre + POSValidator.Stake v ->
  selectLoop r (pre ++ v :: post)
  = Returned (String.string_of_list_byte (POSValidator.PublicKey v)).
Proof.
  induction pre as [|a pre IH]; intros r Hpre Hv Hin Hr; simpl in *.
  - rewrite wrap64_id
      by (unfold inInt64, minInt64, maxInt64 in *; lia).
    destruct (Z.leb_spec (r - POSValidator.Stake v) 0); [reflexivity | lia].
  - apply Forall_cons in Hpre as [Ha Hpre].
    assert (0 <= sumStake pre).
    { clear -Hpre. induction Hpre; simpl; lia. }
    rewrite wrap64_id
      by (unfold inInt64, minInt64, maxInt64 in *; lia).
    destruct (Z.leb_spec (r - POSValidator.Stake a) 0); [lia|].
    apply IH; try assumption; [|lia].
    unfold inInt64, minInt64, maxInt64 in *. lia.
Qed.

Lemma selectLoop_Returned (order : list POSValidator) : forall (r : Z) (k : string),
  selectLoop r order = Returned k ->
  exists w : POSValidator, w ∈ order /\
    k = String.string_of_list_byte (POSValidator.PublicKey w).
Proof.
  induction order as [|a order IH]; intros r k; simpl; [discriminate|].
  destruct (wrap64 (r - POSValidator.Stake a) <=? 0).
  - intros [= <-]. exists a. split; [left | reflexivity].
  - intros Hk. destruct (IH _ _ Hk) as (w & Hw & ->).
    exists w. split; [now right | reflexivity].
Qed.

Lemma string_of_list_byte_inj (l1 l2 : list byte) :
  String.string_of_list_byte l1 = String.string_of_list_byte l2 -> l1 = l2.
Proof.
  intros H. apply (f_equal String.list_byte_of_string) in H.
  now rewrite !String.list_byte_of_string_of_list_byte in H.
Qed.

Lemma filter_Forall_all {A : Type} (P : A -> Prop) `{forall x, Decision (P x)}
    (l : list A) : Forall P l -> filter P l = l.
Proof.
  induction 1 as [|x l Hx _ IH]; [reflexivity|].
  now rewrite filter_cons_True, IH.
Qed.

Lemma filter_Forall_none {A : Type} (P : A -> Prop) `{forall x, Decision (P x)}
    (l : list A) : Forall (fun x => ~ P x) l -> filter P l = [].
Proof.
  induction 1 as [|x l Hx _ IH]; [reflexivity|].
  now rewrite filter_cons_False, IH.
Qed.

(** The count of the draws that return the validator visited first, when
    stakes do not overflow and its key is its own: its stake plus one, as
    long as other stake remains. *)
Lemma winningDraws_first (v : POSValidator) (rest : list POSValidator) :
  0 <= POSValidator.Stake v < sumStake (v :: rest) ->
  inInt64 (sumStake (v :: rest)) ->
  Forall (fun w => POSValidator.PublicKey w <> POSValidator.PublicKey v) rest ->
  Z.of_nat (length (winningDraws (v :: rest) (POSValidator.PublicKey v)))
  = POSValidator.Stake v + 1.
Proof.
  intros Hv Hin Hkeys. unfold winningDraws.
  rewrite totalStake_exact by exact Hin.
  set (s := POSValidator.Stake v) in *. set (total := sumStake (v :: rest)) in *.
  replace total with ((s + 1) + (total - (s + 1))) by lia.
  rewrite seqZ_app by lia. rewrite filter_app, length_app.
  rewrite filter_Forall_all, filter_Forall_none.
  - rewrite length_seqZ. simpl. lia.
  - apply Forall_forall. intros r Hr Hsel.
    apply elem_of_seqZ in Hr. simpl in Hsel. fold s in Hsel.
    unfold inInt64, minInt64, maxInt64 in Hin.
    rewrite wrap64_id in Hsel
      by (unfold inInt64, minInt64, maxInt64; lia).
    destruct (Z.leb_spec (r - s) 0); [lia|].
    apply selectLoop_Returned in Hsel as (w & Hw & Hk).
    apply string_of_list_byte_inj in Hk.
    rewrite Forall_forall in Hkeys. now apply (Hkeys w Hw).
  - apply Forall_forall. intros r Hr. apply elem_of_seqZ in Hr.
    apply selectLoop_first_upto_stake; [|fold s; lia].
    unfold inInt64, minInt64, maxInt64 in *. fold s. lia.
Qed.


(** C1 (the code at the example of its own comment). With A staking 70 and B
    staking 30 the total is 100; of the 100 draws, 71 return A and 29 return
    B when A is visited first, 69 and 31 when B is: the draw equal to the
    first validator's stake still returns that validator ([random <= 0]),
    so the counts are not the stakes. *)
Theorem ProofOfStake_draw_counts :
  totalStake [validatorA; validatorB] = 100 /\
  length (winningDraws [validatorA; validatorB] (POSValidator.PublicKey validatorA)) = 71%nat /\
  length (winningDraws [validatorA; validatorB] (POSValidator.PublicKey validatorB)) = 29%nat /\
  length (winningDraws [validatorB; validatorA] (POSValidator.PublicKey validatorA)) = 69%nat /\
  length (winningDraws [validatorB; validatorA] (POSValidator.PublicKey validatorB)) = 31%nat /\
  ProofOfStake (fun _ => inr 70) [validatorA; validatorB] [validatorA; validatorB]
  = Returned "A"%string.
Proof. repeat split; vm_compute; reflexivity. Qed.

(** ** transaction.go *)

Section TransactionFacts.
Variable sha256 : list byte -> list byte.
Variable ecdsaSign : PrivateKey -> list byte -> error + Z * Z.

(** [hashTransaction] reads the first input and the first output. *)
Lemma hashTransaction_cons (id : list byte) (txIn : TxInput) (ins : list TxInput)
    (txOut : TxOutput) (outs : list TxOutput) :
  hashTransaction sha256 (Transaction.Build id (txIn :: ins) (txOut :: outs))
  = Returned (sha256 (TxInput.PublicKey txIn ++ TxOutput.PublicKey txOut
                      ++ amountBytes (TxOutput.Value txOut))).
Proof. reflexivity. Qed.

(** It panics on a transaction without input or without output. *)
Lemma hashTransaction_empty (tx : Transaction) :
  Transaction.Input tx = [] \/ Transaction.Output tx = [] ->
  hashTransaction sha256 tx = Panicked IndexOutOfRange.
Proof.
  unfold hashTransaction, combinedData.
  intros [-> | ->]; [reflexivity|]. now destruct (Transaction.Input tx).
Qed.

(** [NewTransaction] in one step: the id is computed from the unsigned
    transaction, then signed. *)
Lemma NewTransaction_eq (privateKey : PrivateKey) (recipient : list byte)
    (amount : Z) :
  NewTransaction sha256 ecdsaSign privateKey recipient amount
  = match ecdsaSign privateKey
            (sha256 (transferData privateKey recipient amount)) with
    | inl err => Panicked (LogPanic err)
    | inr (r, s) =>
        Returned (Transaction.Build
                    (sha256 (transferData privateKey recipient amount))
                    [TxInput.Build (bigBytes r ++ bigBytes s)
                                   (bigBytes (PrivateKey.X privateKey))]
                    [TxOutput.Build amount recipient])
    end.
Proof.
  unfold NewTransaction, transferData. simpl.
  destruct (ecdsaSign _ _) as [err|[r s]]; reflexivity.
Qed.
End TransactionFacts.

(** The amount is cut to 32 bits before it is rendered. *)
Lemma amountBytes_period (v : Z) : amountBytes (v + 2 ^ 32) = amountBytes v.
Proof.
  unfold amountBytes, wrap32. do 2 f_equal.
  replace (v + 2 ^ 32 + 2 ^ 31) with (v + 2 ^ 31 + 1 * 2 ^ 32) by lia.
  now rewrite Z.mod_add.
Qed.

(** Every amount in the range of the surrogate halves is rendered as
    U+FFFD. *)
Lemma amountBytes_surrogate (v : Z) :
  0xD800 <= v <= 0xDFFF -> amountBytes v = [Byte.xef; Byte.xbf; Byte.xbd].
Proof.
  intros Hv. unfold amountBytes, wrap32.
  rewrite Z.mod_small by lia.
  replace (v + 2 ^ 31 - 2 ^ 31) with v by lia.
  unfold encodeRune.
  destruct (Z.leb_spec 0 v); [|lia].
  destruct (Z.leb_spec v 0x7F); [lia|].
  destruct (Z.leb_spec v 0x7FF); [lia|].
  destruct (Z.ltb_spec v 0); [lia|].
  destruct (Z.ltb_spec 0x10FFFF v); [lia|].
  destruct (Z.leb_spec 0xD800 v); [|lia].
  destruct (Z.leb_spec v 0xDFFF); [|lia].
  reflexivity.
Qed.

(** C2 (the code at two amounts). The amount enters the hashed bytes as
    [string(rune(amount))], the UTF-8 text of the code point [amount], not as
    a fixed-width number: the amounts 55296 and 55297 (surrogate halves, both
    rendered as U+FFFD) give the same hashed bytes and so the same id under
    every hash, an amount and the same amount plus 2^32 do too, and the
    width of the field varies from 1 to 4 bytes where the big-endian
    encoding has 8. *)
Theorem amountBytes_collides :
  transferData keyS recipientR 55296 = transferData keyS recipientR 55297 /\
  (forall (sha256 : list byte -> list byte) (privateKey : PrivateKey)
          (recipient : list byte),
      hashTransaction sha256 (unsignedTransfer privateKey recipient 55296)
      = hashTransaction sha256 (unsignedTransfer privateKey recipient 55297)) /\
  amountBytes 65 = amountBytes (2 ^ 32 + 65) /\
  (length (amountBytes 65), length (amountBytes 1000),
   length (amountBytes 10000), length (amountBytes 100000))
  = (1%nat, 2%nat, 3%nat, 4%nat) /\
  length (bigEndian64 65) = 8%nat /\
  bigEndian64 55296 <> bigEndian64 55297.
Proof.
  split; [reflexivity|]. split; [reflexivity|]. split; [reflexivity|].
  split; [reflexivity|]. split; [reflexivity|]. discriminate.
Qed.

(** C6, refuted as stated: two transactions whose second outputs differ in
    value and in public key have the same id under every hash, so the id
    does not cover all outputs. *)
Lemma hashTransaction_ignores_second_output :
  map TxOutput.Value (Transaction.Output txPayA)
    <> map TxOutput.Value (Transaction.Output txPayB) /\
  map TxOutput.PublicKey (Transaction.Output txPayA)
    <> map TxOutput.PublicKey (Transaction.Output txPayB) /\
  hashTransaction idHash txPayA = hashTransaction idHash txPayB.
Proof. split; [discriminate|]. split; [discriminate | reflexivity]. Qed.

(** C6, amended. [hashTransaction] is the hash of the first input's public
    key, the first output's public key and the bytes of the first output's
    value: the stored id, the signatures and every further input and output
    are not part of what is hashed.  The id of a transaction returned by
    [NewTransaction] is that hash, taken before the signature is attached,
    and is still the hash of the signed transaction. *)
Theorem hashTransaction_first_input_output
    (sha256 : list byte -> list byte)
    (ecdsaSign : PrivateKey -> list byte -> error + Z * Z) :
  (forall (id : list byte) (signature pkIn : list byte) (ins : list TxInput)
          (value : Z) (pkOut : list byte) (outs : list TxOutput),
      hashTransaction sha256
        (Transaction.Build id (TxInput.Build signature pkIn :: ins)
                              (TxOutput.Build value pkOut :: outs))
      = Returned (sha256 (pkIn ++ pkOut ++ amountBytes value))) /\
  (forall (privateKey : PrivateKey) (recipient : list byte) (amount : Z)
          (tx : Transaction),
      NewTransaction sha256 ecdsaSign privateKey recipient amount = Returned tx ->
      Transaction.ID tx = sha256 (transferData privateKey recipient amount) /\
      hashTransaction sha256 (unsignedTransfer privateKey recipient amount)
      = Returned (Transaction.ID tx) /\
      hashTransaction sha256 tx = Returned (Transaction.ID tx)).
Proof.
  split; [reflexivity|].
  intros privateKey recipient amount tx. rewrite NewTransaction_eq.
  destruct (ecdsaSign _ _) as [err|[r s]]; [discriminate|].
  intros [= <-]. repeat split.
Qed.

Lemma hashTransaction_first_input_output_witness :
  Transaction.ID
    (Transaction.Build (transferData keyS recipientR 10)
       [TxInput.Build (bigBytes 1 ++ bigBytes 2) (bigBytes 83)]
       [TxOutput.Build 10 recipientR])
  = idHash (transferData keyS recipientR 10).
Proof.
  apply (proj2 (hashTransaction_first_input_output idHash signOnes)
           keyS recipientR 10).
  reflexivity.
Defined.

(** C9, refuted as stated: with a signer that fails, [NewTransaction]
    panics; no error value reaches the caller. *)
Lemma NewTransaction_sign_failure_panics :
  NewTransaction idHash signFails keyS recipientR 10
  = Panicked (LogPanic "invalid key").
Proof. reflexivity. Qed.

(** C9, amended. When signing fails [NewTransaction] panics with the
    signer's error ([log.Panic]) and returns nothing; when it returns a
    transaction, signing succeeded and the input of the transaction holds
    the whole signature [r ++ s], so a partially signed transaction is never
    returned. *)
Theorem NewTransaction_sign_failure
    (sha256 : list byte -> list byte)
    (ecdsaSign : PrivateKey -> list byte -> error + Z * Z)
    (privateKey : PrivateKey) (recipient : list byte) (amount : Z) :
  (forall err,
      ecdsaSign privateKey (sha256 (transferData privateKey recipient amount))
      = inl err ->
      NewTransaction sha256 ecdsaSign privateKey recipient amount
      = Panicked (LogPanic err)) /\
  (forall tx,
      NewTransaction sha256 ecdsaSign privateKey recipient amount = Returned tx ->
      exists r s,
        ecdsaSign privateKey (Transaction.ID tx) = inr (r, s) /\
        Transaction.Input tx
        = [TxInput.Build (bigBytes r ++ bigBytes s)
                         (bigBytes (PrivateKey.X privateKey))]).
Proof.
  rewrite NewTransaction_eq.
  destruct (ecdsaSign _ _) as [err|[r s]] eqn:Hsign; split.
  - now intros e [= <-].
  - discriminate.
  - discriminate.
  - intros tx [= <-]. now exists r, s.
Qed.

Lemma NewTransaction_sign_failure_witness :
  NewTransaction idHash signFails keyS recipientR 10
  = Panicked (LogPanic "invalid key").
Proof.
  apply (proj1 (NewTransaction_sign_failure idHash signFails keyS recipientR 10)).
  reflexivity.
Defined.

(** ** block.go *)

Lemma concat_inj_width {A : Type} (w : nat) (l1 l2 : list (list A))
    (t1 t2 : list A) :
  Forall (fun x => length x = w) l1 -> Forall (fun x => length x = w) l2 ->
  length l1 = length l2 ->
  concat l1 ++ t1 = concat l2 ++ t2 -> l1 = l2 /\ t1 = t2.
Proof.
  intros H1. revert l2. induction H1 as [|x l1 Hx _ IH]; intros l2 H2 Hlen Heq.
  - destruct l2; [now split | discriminate].
  - destruct H2 as [|y l2 Hy H2]; [discriminate|]. simpl in *.
    rewrite <- !app_assoc in Heq.
    apply app_inj_1 in Heq as [-> Heq]; [|congruence].
    destruct (IH l2 H2) as [-> ->]; [congruence | exact Heq | now split].
Qed.

Section BlockFacts.
Context {Time : Type}.
Variable timeString : Time -> list byte.
Variable sha256 : list byte -> list byte.
Variable txHash : Transaction -> list byte.

Lemma txHashes_from (transactions : list Transaction) (acc : list byte) :
  fold_left (fun acc tx => acc ++ txHash tx) transactions acc
  = acc ++ concat (map txHash transactions).
Proof.
  revert acc. induction transactions as [|tx l IH]; intros acc; simpl.
  - now rewrite app_nil_r.
  - now rewrite IH, <- app_assoc.
Qed.

Lemma txHashes_concat (transactions : list Transaction) :
  txHashes txHash transactions = concat (map txHash transactions).
Proof. unfold txHashes. now rewrite txHashes_from. Qed.

Lemma blockPreimage_eq (b : Block Time) :
  blockPreimage timeString txHash b
  = Block.PrevBlockHash b
    ++ concat (map txHash (Block.Transactions b))
    ++ timeString (Block.Timestamp b).
Proof. unfold blockPreimage. simpl. now rewrite txHashes_concat. Qed.

(** [NewBlock] stores the hash of the block it returns. *)
Lemma NewBlock_Hash (now : Time) (transactions : list Transaction)
    (prevBlockHash validator : list byte) :
  let b := NewBlock timeString sha256 txHash now transactions prevBlockHash
                    validator in
  Block.Hash b = calculateHash timeString sha256 txHash b.
Proof. reflexivity. Qed.
End BlockFacts.

(** C5, refuted as stated: two blocks assembled from the same inputs by
    different validators are different blocks with the same computed (and
    stored) hash, under a hash without collisions. *)
Lemma calculateHash_ignores_validator :
  blockByV <> blockByW /\
  calculateHash secondsText idHash Hash blockByV
  = calculateHash secondsText idHash Hash blockByW /\
  Block.Hash blockByV = Block.Hash blockByW.
Proof. split; [discriminate|]. split; reflexivity. Qed.

(** C5, amended. The computed hash covers the previous hash, the
    transaction hashes in order and the text of the timestamp, and nothing
    else: blocks that agree on these three have the same computed hash
    whatever their Validator, Nonce and stored Hash.  Under a hash without
    collisions the converse holds for blocks whose previous hashes have one
    length, that hold the same number of transactions, and whose transaction
    hashes have one width [w]: equal computed hashes mean equal previous
    hash, equal sequences of transaction hashes and equal timestamp text. *)
Theorem calculateHash_equal_iff {Time : Type}
    (timeString : Time -> list byte) (sha256 : list byte -> list byte)
    (txHash : Transaction -> list byte) (b1 b2 : Block Time) :
  (Block.PrevBlockHash b1 = Block.PrevBlockHash b2 /\
   map txHash (Block.Transactions b1) = map txHash (Block.Transactions b2) /\
   timeString (Block.Timestamp b1) = timeString (Block.Timestamp b2) ->
   calculateHash timeString sha256 txHash b1
   = calculateHash timeString sha256 txHash b2) /\
  (forall w : nat,
     (forall x y, sha256 x = sha256 y -> x = y) ->
     length (Block.PrevBlockHash b1) = length (Block.PrevBlockHash b2) ->
     length (Block.Transactions b1) = length (Block.Transactions b2) ->
     Forall (fun tx => length (txHash tx) = w) (Block.Transactions b1) ->
     Forall (fun tx => length (txHash tx) = w) (Block.Transactions b2) ->
     calculateHash timeString sha256 txHash b1
     = calculateHash timeString sha256 txHash b2 ->
     Block.PrevBlockHash b1 = Block.PrevBlockHash b2 /\
     map txHash (Block.Transactions b1) = map txHash (Block.Transactions b2) /\
     timeString (Block.Timestamp b1) = timeString (Block.Timestamp b2)).
Proof.
  unfold calculateHash. rewrite !blockPreimage_eq. split.
  - now intros (-> & -> & ->).
  - intros w Hinj Hprev Hcount Hw1 Hw2 Heq. apply Hinj in Heq.
    apply app_inj_1 in Heq as [Hp Heq]; [|exact Hprev].
    apply (concat_inj_width w) in Heq as [Htx Ht].
    + now repeat split.
    + now apply Forall_map.
    + now apply Forall_map.
    + now rewrite !length_map.
Qed.

Lemma calculateHash_equal_iff_witness :
  (calculateHash secondsText idHash Hash blockByV
   = calculateHash secondsText idHash Hash blockByW) /\
  (calculateHash secondsText idHash Hash (withTransactions blockByV [txOne; txTwo])
   = calculateHash secondsText idHash Hash (withTransactions blockByW [txOne; txTwo]) ->
   map Hash [txOne; txTwo] = map Hash [txOne; txTwo]).
Proof.
  split.
  - apply (proj1 (calculateHash_equal_iff secondsText idHash Hash
                    blockByV blockByW)).
    repeat split.
  - intros Heq.
    apply (proj2 (calculateHash_equal_iff secondsText idHash Hash
                    (withTransactions blockByV [txOne; txTwo])
                    (withTransactions blockByW [txOne; txTwo])) 2%nat).
    + intros x y Hxy. exact Hxy.
    + reflexivity.
    + reflexivity.
    + repeat constructor.
    + repeat constructor.
    + exact Heq.
Defined.




(** ** The wire format *)

Lemma Z_of_byte_range (b : byte) : 0 <= Z_of_byte b < 256.
Proof.
  unfold Z_of_byte. pose proof (Byte.to_N_bounded b). lia.
Qed.

Lemma Z_of_byte_of_Z (z : Z) : 0 <= z < 256 -> Z_of_byte (byte_of_Z z) = z.
Proof.
  intros Hz. unfold Z_of_byte, byte_of_Z. rewrite Z.mod_small by exact Hz.
  destruct (Byte.of_N (Z.to_N z)) as [b|] eqn:Hb.
  - apply Byte.to_of_N in Hb. rewrite Hb. lia.
  - apply Byte.of_N_None_iff in Hb. lia.
Qed.

Lemma bigEndian_length_ge (fuel : nat) : forall (n : Z) (acc : list byte),
  (length acc <= length (bigEndian fuel n acc))%nat.
Proof.
  induction fuel as [|fuel IH]; intros n acc; simpl; [lia|].
  destruct (n <=? 0); [lia|].
  specialize (IH (n / 256) (byte_of_Z (n mod 256) :: acc)). simpl in IH. lia.
Qed.

Lemma bigEndian_length_le (fuel : nat) : forall (k : nat) (n : Z) (acc : list byte),
  0 <= n < 256 ^ Z.of_nat k ->
  (length (bigEndian fuel n acc) <= k + length acc)%nat.
Proof.
  induction fuel as [|fuel IH]; intros k n acc Hn; simpl; [lia|].
  destruct (Z.leb_spec n 0); [lia|].
  destruct k as [|k]; [simpl in Hn; lia|].
  specialize (IH k (n / 256) (byte_of_Z (n mod 256) :: acc)).
  simpl in IH. rewrite Nat2Z.inj_succ, Z.pow_succ_r in Hn by lia.
  assert (0 <= n / 256 < 256 ^ Z.of_nat k).
  { split; [apply Z.div_pos; lia | apply Z.div_lt_upper_bound; lia]. }
  specialize (IH ltac:(assumption)). lia.
Qed.

Lemma bigEndian_value (fuel : nat) : forall (n : Z) (acc : list byte),
  0 <= n < 256 ^ Z.of_nat fuel ->
  fold_left (fun a b => a * 256 + Z_of_byte b) (bigEndian fuel n acc) 0
  = fold_left (fun a b => a * 256 + Z_of_byte b) acc n.
Proof.
  induction fuel as [|fuel IH]; intros n acc Hn; simpl.
  - simpl in Hn. now replace n with 0 by lia.
  - destruct (Z.leb_spec n 0); [now replace n with 0 by lia|].
    rewrite Nat2Z.inj_succ, Z.pow_succ_r in Hn by lia.
    rewrite IH.
    + simpl. rewrite Z_of_byte_of_Z by (apply Z.mod_pos_bound; lia).
      f_equal. pose proof (Z.div_mod n 256). lia.
    + split; [apply Z.div_pos; lia | apply Z.div_lt_upper_bound; lia].
Qed.

Lemma bigBytes_fuel (n : Z) :
  0 <= n -> n < 256 ^ Z.of_nat (S (Z.to_nat (Z.log2 n))).
Proof.
  intros Hn. rewrite Nat2Z.inj_succ, Z2Nat.id by apply Z.log2_nonneg.
  destruct (Z.eq_dec n 0) as [->|Hne]; [reflexivity|].
  pose proof (Z.log2_spec n ltac:(lia)) as [_ Hlt].
  eapply Z.lt_le_trans; [exact Hlt|].
  change 256 with (2 ^ 8). rewrite <- Z.pow_mul_r by (pose proof (Z.log2_nonneg n); lia).
  apply Z.pow_le_mono_r; [lia|]. pose proof (Z.log2_nonneg n). lia.
Qed.

Lemma fromBigEndian_bigBytes (n : Z) :
  0 <= n -> Wire.fromBigEndian (bigBytes n) = n.
Proof.
  intros Hn. unfold Wire.fromBigEndian, bigBytes.
  rewrite Z.abs_eq by exact Hn.
  rewrite bigEndian_value by (split; [exact Hn | now apply bigBytes_fuel]).
  reflexivity.
Qed.

Lemma bigBytes_length (n : Z) :
  0 < n < 2 ^ 64 -> (1 <= length (bigBytes n) <= 8)%nat.
Proof.
  intros Hn. unfold bigBytes. rewrite Z.abs_eq by lia. split.
  - simpl. destruct (Z.leb_spec n 0); [lia|].
    pose proof (bigEndian_length_ge (Z.to_nat (Z.log2 n)) (n / 256)
                  [byte_of_Z (n mod 256)]) as H'. simpl in H'. lia.
  - pose proof (bigEndian_length_le (S (Z.to_nat (Z.log2 n))) 8 n []) as H'.
    simpl length in H'. rewrite Nat.add_0_r in H'. apply H'.
    change (256 ^ Z.of_nat 8) with (2 ^ 64). lia.
Qed.

Lemma sound_uint : sound Wire.putUint Wire.getUint.
Proof.
  intros n bs rest. unfold Wire.putUint.
  destruct (Z.ltb_spec n 0); [discriminate|].
  destruct (Z.leb_spec (2 ^ 64) n); [discriminate|]. simpl.
  destruct (Z.ltb_spec n 128) as [Hsmall|Hbig]; intros [= <-]; simpl.
  - rewrite Z_of_byte_of_Z by lia.
    destruct (Z.ltb_spec n 128); [reflexivity | lia].
  - pose proof (bigBytes_length n ltac:(lia)) as Hlen.
    rewrite Z_of_byte_of_Z by lia.
    destruct (Z.ltb_spec (256 - Z.of_nat (length (bigBytes n))) 128); [lia|].
    replace (Z.to_nat (256 - (256 - Z.of_nat (length (bigBytes n)))))
      with (length (bigBytes n)) by lia.
    destruct (Nat.ltb_spec 8 (length (bigBytes n))); [lia|].
    rewrite length_app.
    destruct (Nat.ltb_spec (length (bigBytes n) + length rest)
                           (length (bigBytes n))); [lia|].
    simpl. rewrite take_app_length, drop_app_length.
    now rewrite fromBigEndian_bigBytes by lia.
Qed.

Lemma sound_int : sound Wire.putInt Wire.getInt.
Proof.
  intros i bs rest Hput. unfold Wire.putInt in Hput. unfold Wire.getInt.
  rewrite (sound_uint _ _ rest Hput). cbn [mbind option_bind].
  f_equal. f_equal.
  destruct (Z.ltb_spec i 0).
  - replace (2 * (- i - 1) + 1) with (1 + 2 * (- i - 1)) by lia.
    rewrite Z.odd_add_mul_2. change (Z.odd 1) with true. cbv iota.
    Z.div_mod_to_equations. lia.
  - replace (2 * i) with (0 + 2 * i) by lia.
    rewrite Z.odd_add_mul_2. change (Z.odd 0) with false. cbv iota.
    Z.div_mod_to_equations. lia.
Qed.

Lemma sound_bytes : sound Wire.putBytes Wire.getBytes.
Proof.
  intros l bs rest Hput. unfold Wire.putBytes in Hput. unfold Wire.getBytes.
  destruct (Wire.putUint (Z.of_nat (length l))) as [n|] eqn:Hn; [|discriminate].
  injection Hput as <-. rewrite <- app_assoc.
  rewrite (sound_uint _ _ (l ++ rest) Hn). simpl.
  rewrite Nat2Z.id, length_app.
  destruct (Nat.ltb_spec (length l + length rest) (length l)); [lia|].
  now rewrite take_app_length, drop_app_length.
Qed.

Section SliceFacts.
Context {A : Type}.
Variable put : A -> option (list byte).
Variable get : Wire.parser A.
Hypothesis put_get : sound put get.

Lemma getN_putAll (l : list A) : forall bs rest,
  Wire.putAll put l = Some bs ->
  Wire.getN get (length l) (bs ++ rest) = Some (l, rest).
Proof.
  induction l as [|a l IH]; intros bs rest Hput; simpl in *.
  - now injection Hput as <-.
  - destruct (put a) as [x|] eqn:Hx; [|discriminate]. simpl in Hput.
    destruct (Wire.putAll put l) as [xs|] eqn:Hxs; [|discriminate].
    injection Hput as <-. rewrite <- app_assoc.
    rewrite (put_get _ _ (xs ++ rest) Hx). simpl.
    now rewrite (IH xs rest eq_refl).
Qed.

Lemma sound_slice : sound (Wire.putSlice put) (Wire.getSlice get).
Proof.
  intros l bs rest Hput. unfold Wire.putSlice in Hput. unfold Wire.getSlice.
  destruct (Wire.putUint (Z.of_nat (length l))) as [n|] eqn:Hn; [|discriminate].
  simpl in Hput.
  destruct (Wire.putAll put l) as [xs|] eqn:Hxs; [|discriminate].
  injection Hput as <-. rewrite <- app_assoc.
  rewrite (sound_uint _ _ (xs ++ rest) Hn). simpl.
  rewrite Nat2Z.id. now apply getN_putAll.
Qed.
End SliceFacts.

(** A writer of several fields succeeded: name the bytes of each field and
    split the output accordingly. *)
Ltac writer_fields H :=
  repeat match type of H with
         | context [mbind _ ?o] =>
             let Hfield := fresh "Hfield" in
             destruct o eqn:Hfield; [simpl in H | discriminate H]
         end;
  injection H as <-; rewrite <- ?app_assoc.

(** The parser reads one field back. *)
Ltac parser_field lemma :=
  match goal with
  | Hfield : _ = Some ?bs |- context [?bs ++ ?rest] =>
      rewrite (lemma _ _ rest Hfield); clear Hfield; simpl
  end.

Lemma sound_TxInput : sound Wire.putTxInput Wire.getTxInput.
Proof.
  intros [s p] bs rest Hput. unfold Wire.putTxInput in Hput.
  unfold Wire.getTxInput. simpl in Hput. writer_fields Hput.
  parser_field sound_bytes. now parser_field sound_bytes.
Qed.

Lemma sound_TxOutput : sound Wire.putTxOutput Wire.getTxOutput.
Proof.
  intros [v p] bs rest Hput. unfold Wire.putTxOutput in Hput.
  unfold Wire.getTxOutput. simpl in Hput. writer_fields Hput.
  parser_field sound_int. now parser_field sound_bytes.
Qed.

Lemma sound_Transaction : sound Wire.putTransaction Wire.getTransaction.
Proof.
  intros [id ins outs] bs rest Hput. unfold Wire.putTransaction in Hput.
  unfold Wire.getTransaction. simpl in Hput. writer_fields Hput.
  parser_field sound_bytes.
  parser_field (sound_slice _ _ sound_TxInput).
  now parser_field (sound_slice _ _ sound_TxOutput).
Qed.

Lemma sound_Block : sound Wire.putBlock Wire.getBlock.
Proof.
  intros [t txs p h v n] bs rest Hput. unfold Wire.putBlock in Hput.
  unfold Wire.getBlock. simpl in Hput. writer_fields Hput.
  parser_field sound_int.
  parser_field (sound_slice _ _ sound_Transaction).
  do 3 parser_field sound_bytes.
  now parser_field sound_int.
Qed.

(** The writers accept every value of the Go types. *)
Lemma putUint_some (n : Z) :
  0 <= n < 2 ^ 64 -> exists bs, Wire.putUint n = Some bs.
Proof.
  intros Hn. unfold Wire.putUint.
  destruct (Z.ltb_spec n 0); [lia|].
  destruct (Z.leb_spec (2 ^ 64) n); [lia|]. simpl.
  destruct (n <? 128); eauto.
Qed.

Lemma putInt_some (i : Z) : inInt64 i -> exists bs, Wire.putInt i = Some bs.
Proof.
  unfold inInt64, minInt64, maxInt64, Wire.putInt. intros Hi.
  apply putUint_some. destruct (Z.ltb_spec i 0); lia.
Qed.

Lemma putBytes_some (l : list byte) :
  goLen l -> exists bs, Wire.putBytes l = Some bs.
Proof.
  unfold goLen, maxInt64, Wire.putBytes. intros Hl.
  destruct (putUint_some (Z.of_nat (length l))) as [n ->]; [lia|].
  simpl. eauto.
Qed.

Lemma putSlice_some {A : Type} (put : A -> option (list byte))
    (goValue : A -> Prop) (l : list A) :
  (forall a, goValue a -> exists bs, put a = Some bs) ->
  goLen l -> Forall goValue l -> exists bs, Wire.putSlice put l = Some bs.
Proof.
  unfold goLen, maxInt64, Wire.putSlice. intros Hput Hl Hall.
  destruct (putUint_some (Z.of_nat (length l))) as [n ->]; [lia|]. simpl.
  assert (exists xs, Wire.putAll put l = Some xs) as [xs ->].
  { clear Hl. induction Hall as [|a l Ha _ [xs IH]]; simpl; [eauto|].
    destruct (Hput a Ha) as [x ->]. rewrite IH. simpl. eauto. }
  simpl. eauto.
Qed.

Lemma putTxInput_some (i : TxInput) :
  goTxInput i -> exists bs, Wire.putTxInput i = Some bs.
Proof.
  intros [Hs Hp]. unfold Wire.putTxInput.
  destruct (putBytes_some _ Hs) as [s ->], (putBytes_some _ Hp) as [p ->].
  simpl. eauto.
Qed.

Lemma putTxOutput_some (o : TxOutput) :
  goTxOutput o -> exists bs, Wire.putTxOutput o = Some bs.
Proof.
  intros [Hv Hp]. unfold Wire.putTxOutput.
  destruct (putInt_some _ Hv) as [v ->], (putBytes_some _ Hp) as [p ->].
  simpl. eauto.
Qed.

Lemma putTransaction_some (tx : Transaction) :
  goTransaction tx -> exists bs, Wire.putTransaction tx = Some bs.
Proof.
  intros (Hid & [Hil Hi] & [Hol Ho]). unfold Wire.putTransaction.
  destruct (putBytes_some _ Hid) as [id ->].
  destruct (putSlice_some _ _ _ putTxInput_some Hil Hi) as [ins ->].
  destruct (putSlice_some _ _ _ putTxOutput_some Hol Ho) as [outs ->].
  simpl. eauto.
Qed.

Lemma putBlock_some (b : Block Z) :
  goBlock b -> exists bs, Wire.putBlock b = Some bs.
Proof.
  intros (Ht & [Hl Htxs] & Hp & Hh & Hv & Hn). unfold Wire.putBlock.
  destruct (putInt_some _ Ht) as [t ->].
  destruct (putSlice_some _ _ _ putTransaction_some Hl Htxs) as [txs ->].
  destruct (putBytes_some _ Hp) as [p ->], (putBytes_some _ Hh) as [h ->].
  destruct (putBytes_some _ Hv) as [v ->], (putInt_some _ Hn) as [n ->].
  simpl. eauto.
Qed.

Lemma wire_law {A : Type} (put : A -> option (list byte)) (get : Wire.parser A)
    (goValue : A -> Prop) :
  sound put get -> (forall a, goValue a -> exists bs, put a = Some bs) ->
  GobLaw {| gobEncode := Wire.encodeWith put;
            gobDecode := Wire.decodeWith get |} goValue.
Proof.
  intros Hsound Hput. split; simpl.
  - intros a Ha. destruct (Hput a Ha) as [bs Hbs].
    exists bs. unfold Wire.encodeWith. now rewrite Hbs.
  - intros a data. unfold Wire.encodeWith, Wire.decodeWith.
    destruct (put a) as [bs|] eqn:Hbs; [|discriminate].
    intros [= <-]. specialize (Hsound a bs [] Hbs).
    rewrite app_nil_r in Hsound. now rewrite Hsound.
Qed.

(** The wire format satisfies the law assumed of encoding/gob. *)
Lemma wire_Transaction_law : GobLaw Wire.gobTransaction goTransaction.
Proof. apply wire_law; [exact sound_Transaction | exact putTransaction_some]. Qed.

Lemma wire_Block_law : GobLaw Wire.gobBlock goBlock.
Proof. apply wire_law; [exact sound_Block | exact putBlock_some]. Qed.

Lemma goTransaction_tx22 : goTransaction tx22.
Proof.
  unfold goTransaction, goTxInput, goTxOutput, goLen, inInt64,
    minInt64, maxInt64.
  repeat first [split | constructor]; simpl; lia.
Qed.

(** ** Serialization *)

(** C8. Given of encoding/gob that it encodes every [Transaction] value and
    decodes what it encoded to the same value, [Serialize] returns bytes for
    every transaction, with any number of inputs and outputs, and
    [DeserializeTransaction] returns from them a transaction equal to the
    original in every field; neither panics. *)
Theorem Transaction_roundtrip (G : Gob Transaction) (tx : Transaction) :
  GobLaw G goTransaction -> goTransaction tx ->
  (exists data,
      Transaction_Serialize tx = Returned data /\
      DeserializeTransaction data = Returned tx) /\
  (let* data := Transaction_Serialize tx in DeserializeTransaction data)
  = Returned tx.
Proof.
  intros [Henc Hdec] Htx.
  destruct (Henc tx Htx) as [data Hdata].
  assert (Hser : Transaction_Serialize tx = Returned data).
  { unfold Transaction_Serialize. now rewrite Hdata. }
  assert (Hdes : DeserializeTransaction data = Returned tx).
  { unfold DeserializeTransaction. now rewrite (Hdec tx data Hdata). }
  split; [now exists data|]. rewrite Hser. exact Hdes.
Qed.

Lemma Transaction_roundtrip_witness :
  (let* data := Transaction_Serialize (gobTransaction := Wire.gobTransaction) tx22 in
   DeserializeTransaction (gobTransaction := Wire.gobTransaction) data)
  = Returned tx22.
Proof.
  apply (Transaction_roundtrip Wire.gobTransaction tx22).
  - exact wire_Transaction_law.
  - exact goTransaction_tx22.
Defined.

(** C4, refuted as stated: on the empty byte sequence, which does not
    decode, both functions panic; no error value is returned. *)
Lemma Deserialize_empty_panics :
  gobDecode (Gob := Wire.gobTransaction) [] = inl "EOF"%string /\
  DeserializeTransaction (gobTransaction := Wire.gobTransaction) []
  = Panicked (LogPanic "EOF") /\
  DeserializeBlock (gobBlock := Wire.gobBlock) [] = Panicked (GoPanic "EOF").
Proof. repeat split. Qed.

(** C4, amended. On a byte sequence that gob fails to decode, with error
    [err], [DeserializeBlock] panics with [err] and
    [DeserializeTransaction] panics with [err] through [log.Panic]: the
    failure is told apart by the error the panic carries, and nothing is
    returned.  On a byte sequence that decodes they return the value. *)
Theorem Deserialize_malformed_panics {Time : Type}
    (gobBlock : Gob (Block Time)) (gobTransaction : Gob Transaction)
    (data : list byte) :
  (forall err, gobDecode (A := Block Time) data = inl err ->
     DeserializeBlock data = Panicked (GoPanic err)) /\
  (forall err, gobDecode (A := Transaction) data = inl err ->
     DeserializeTransaction data = Panicked (LogPanic err)) /\
  (forall block, gobDecode (A := Block Time) data = inr block ->
     DeserializeBlock data = Returned block) /\
  (forall tx, gobDecode (A := Transaction) data = inr tx ->
     DeserializeTransaction data = Returned tx).
Proof.
  unfold DeserializeBlock, DeserializeTransaction.
  repeat split; intros x Hx; now rewrite Hx.
Qed.

Lemma Deserialize_malformed_panics_witness :
  DeserializeBlock (gobBlock := Wire.gobBlock) [Byte.xff]
  = Panicked (GoPanic "unexpected EOF") /\
  DeserializeTransaction (gobTransaction := Wire.gobTransaction) [Byte.xff]
  = Panicked (LogPanic "unexpected EOF").
Proof.
  pose proof (Deserialize_malformed_panics Wire.gobBlock Wire.gobTransaction
                [Byte.xff]) as (Hblock & Htx & _).
  split; [apply Hblock | apply Htx]; reflexivity.
Defined.

(** * Further properties of the code *)

(** ** consensus.go: the two loops of [ProofOfStake] *)

(** A draw below the total is always answered inside the loop. *)
Lemma selectLoop_below_total (order : list POSValidator) (r : Z) :
  0 <= r < totalStake order ->
  exists v : POSValidator, v ∈ order /\
    selectLoop r order
    = Returned (String.string_of_list_byte (POSValidator.PublicKey v)).
Proof.
  intros Hr. pose proof (wrap64_range (sumStake order)) as Hrange.
  rewrite <- totalStake_sum in Hrange.
  unfold inInt64, minInt64, maxInt64 in *.
  apply selectLoop_returns.
  - unfold inInt64, minInt64, maxInt64. lia.
  - lia.
  - rewrite <- wrap64_sub_r, <- totalStake_sum, wrap64_id; [lia|].
    unfold inInt64, minInt64, maxInt64. lia.
Qed.

Lemma ranges_swap_AB : ranges registryAB [validatorB; validatorA].
Proof.
  unfold ranges. rewrite <- ranges_registryAB. apply perm_swap.
Qed.

(** X1. [ProofOfStake] panics in exactly two ways, whatever the stakes
    (negative ones and overflow included) and the orders of visit: inside
    [rand.Int] when the total it computed is not positive, and with the error
    of the entropy source when the draw fails.  Given that a draw lies in
    [[0, total)], the panic "Unable to find a validator" after the loop never
    happens. *)
Theorem ProofOfStake_panics_iff
    (validators : gmap string POSValidator) (randInt : Z -> error + Z)
    (order1 order2 : list POSValidator) (p : panic) :
  ranges validators order1 -> ranges validators order2 ->
  (forall r, randInt (totalStake order1) = inr r -> 0 <= r < totalStake order1) ->
  ProofOfStake randInt order1 order2 = Panicked p <->
  (totalStake order1 <= 0 /\ p = RandIntNonPositive) \/
  (0 < totalStake order1 /\
   exists err, randInt (totalStake order1) = inl err /\ p = LogPanic err).
Proof.
  intros H1 H2 Hrand. unfold ProofOfStake.
  assert (Hsame : totalStake order2 = totalStake order1).
  { apply totalStake_perm. unfold ranges in *. now rewrite H1, H2. }
  destruct (Z.leb_spec (totalStake order1) 0) as [Hle|Hgt].
  - split.
    + intros [= <-]. left. now split.
    + intros [[_ ->]|[Hpos _]]; [reflexivity | lia].
  - destruct (randInt (totalStake order1)) as [err|r] eqn:Hdraw.
    + split.
      * intros [= <-]. right. split; [exact Hgt|]. now exists err.
      * intros [[Hneg _]|[_ (e & [= <-] & ->)]]; [lia | reflexivity].
    + specialize (Hrand r eq_refl). rewrite <- Hsame in Hrand.
      destruct (selectLoop_below_total order2 r Hrand) as (v & _ & ->).
      split; [discriminate|].
      intros [[Hneg _]|[_ (e & He & _)]]; [lia | discriminate].
Qed.

Lemma ProofOfStake_panics_iff_witness :
  ProofOfStake (fun _ => inl "entropy exhausted"%string)
    [validatorA; validatorB] [validatorB; validatorA]
  = Panicked (LogPanic "entropy exhausted").
Proof.
  apply (ProofOfStake_panics_iff registryAB
           (fun _ => inl "entropy exhausted"%string)
           [validatorA; validatorB] [validatorB; validatorA]).
  - exact ranges_registryAB.
  - exact ranges_swap_AB.
  - discriminate.
  - right. split; [reflexivity|]. now eexists.
Defined.

(** X2. The total computed by the first loop does not depend on the order
    in which [range] visits the map, overflow included; so the outcome of
    [ProofOfStake] depends on the order of the second loop only. *)
Theorem totalStake_order_independent
    (validators : gmap string POSValidator) (randInt : Z -> error + Z)
    (order1 order1' order2 : list POSValidator) :
  ranges validators order1 -> ranges validators order1' ->
  totalStake order1 = totalStake order1' /\
  ProofOfStake randInt order1 order2 = ProofOfStake randInt order1' order2.
Proof.
  intros H1 H1'.
  assert (Hsame : totalStake order1 = totalStake order1').
  { apply totalStake_perm. unfold ranges in *. now rewrite H1, H1'. }
  split; [exact Hsame|]. unfold ProofOfStake. now rewrite Hsame.
Qed.

Lemma totalStake_order_independent_witness :
  totalStake [validatorA; validatorB] = totalStake [validatorB; validatorA].
Proof.
  apply (totalStake_order_independent registryAB (fun _ => inr 0)
           [validatorA; validatorB] [validatorB; validatorA] []).
  - exact ranges_registryAB.
  - exact ranges_swap_AB.
Defined.

(** X3. The validator returned depends on the order in which the map is
    visited: when the map holds two validators with different keys and
    stakes of at least [r], each of them is returned at the draw [r] by
    some order of visit. *)
Theorem ProofOfStake_depends_on_order
    (validators : gmap string POSValidator) (ka kb : string)
    (a b : POSValidator) (order : list POSValidator) (r : Z) :
  validators !! ka = Some a -> validators !! kb = Some b ->
  POSValidator.PublicKey a <> POSValidator.PublicKey b ->
  ranges validators order -> 0 < totalStake order ->
  0 <= r -> r <= POSValidator.Stake a <= maxInt64 ->
  r <= POSValidator.Stake b <= maxInt64 ->
  exists order_a order_b : list POSValidator,
    ranges validators order_a /\ ranges validators order_b /\
    ProofOfStake (fun _ => inr r) order order_a
    = Returned (String.string_of_list_byte (POSValidator.PublicKey a)) /\
    ProofOfStake (fun _ => inr r) order order_b
    = Returned (String.string_of_list_byte (POSValidator.PublicKey b)) /\
    ProofOfStake (fun _ => inr r) order order_a
    <> ProofOfStake (fun _ => inr r) order order_b.
Proof.
  intros Ha Hb Hkeys Horder Htotal Hr Hsa Hsb.
  assert (Hfront : forall k (v : POSValidator), validators !! k = Some v ->
            r <= POSValidator.Stake v <= maxInt64 ->
            exists o, ranges validators o /\
              ProofOfStake (fun _ => inr r) order o
              = Returned (String.string_of_list_byte (POSValidator.PublicKey v))).
  { intros k v Hk Hs.
    assert (Hin : v ∈ (map_to_list validators).*2).
    { apply list_elem_of_fmap. exists (k, v). split; [reflexivity|].
      now apply elem_of_map_to_list. }
    apply elem_of_Permutation in Hin as [rest Hrest].
    exists (v :: rest). split; [unfold ranges; now symmetry|].
    unfold ProofOfStake.
    destruct (Z.leb_spec (totalStake order) 0); [lia|].
    apply selectLoop_first_upto_stake; [|lia].
    unfold inInt64, minInt64, maxInt64 in *. lia. }
  destruct (Hfront ka a Ha Hsa) as (oa & Hoa & Hra).
  destruct (Hfront kb b Hb Hsb) as (ob & Hob & Hrb).
  exists oa, ob. repeat split; try assumption.
  rewrite Hra, Hrb. intros [= Heq].
  now apply string_of_list_byte_inj in Heq.
Qed.

Lemma ProofOfStake_depends_on_order_witness :
  exists order_a order_b : list POSValidator,
    ranges registryAB order_a /\ ranges registryAB order_b /\
    ProofOfStake (fun _ => inr 20) [validatorA; validatorB] order_a
    = Returned "A"%string /\
    ProofOfStake (fun _ => inr 20) [validatorA; validatorB] order_b
    = Returned "B"%string /\
    ProofOfStake (fun _ => inr 20) [validatorA; validatorB] order_a
    <> ProofOfStake (fun _ => inr 20) [validatorA; validatorB] order_b.
Proof.
  apply (ProofOfStake_depends_on_order registryAB "A" "B" validatorA validatorB
           [validatorA; validatorB] 20).
  - reflexivity.
  - reflexivity.
  - discriminate.
  - exact ranges_registryAB.
  - reflexivity.
  - discriminate.
  - split; discriminate.
  - split; discriminate.
Defined.

(** X4. With stakes that do not overflow, the draws of [[0, total)] that
    return the validator visited first (whose key no other validator has)
    are exactly [0, 1, ..., stake]: one more than its stake, whenever other
    stake remains. *)
Theorem winningDraws_first_exact (v : POSValidator) (rest : list POSValidator) :
  0 <= POSValidator.Stake v < sumStake (v :: rest) ->
  inInt64 (sumStake (v :: rest)) ->
  Forall (fun w => POSValidator.PublicKey w <> POSValidator.PublicKey v) rest ->
  winningDraws (v :: rest) (POSValidator.PublicKey v)
  = seqZ 0 (POSValidator.Stake v + 1).
Proof.
  intros Hv Hin Hkeys. unfold winningDraws.
  rewrite totalStake_exact by exact Hin.
  set (s := POSValidator.Stake v) in *. set (total := sumStake (v :: rest)) in *.
  replace total with ((s + 1) + (total - (s + 1))) by lia.
  rewrite seqZ_app by lia. rewrite filter_app.
  rewrite filter_Forall_all, filter_Forall_none; [apply app_nil_r| |].
  - apply Forall_forall. intros r Hr Hsel.
    apply elem_of_seqZ in Hr. simpl in Hsel. fold s in Hsel.
    unfold inInt64, minInt64, maxInt64 in Hin.
    rewrite wrap64_id in Hsel
      by (unfold inInt64, minInt64, maxInt64; lia).
    destruct (Z.leb_spec (r - s) 0); [lia|].
    apply selectLoop_Returned in Hsel as (w & Hw & Hk).
    apply string_of_list_byte_inj in Hk.
    rewrite Forall_forall in Hkeys. now apply (Hkeys w Hw).
  - apply Forall_forall. intros r Hr. apply elem_of_seqZ in Hr.
    apply selectLoop_first_upto_stake; [|fold s; lia].
    unfold inInt64, minInt64, maxInt64 in *. fold s. lia.
Qed.

Lemma winningDraws_first_exact_witness :
  winningDraws [validatorA; validatorB] (POSValidator.PublicKey validatorA)
  = seqZ 0 (70 + 1).
Proof.
  apply (winningDraws_first_exact validatorA [validatorB]).
  - split; [discriminate | reflexivity].
  - split; discriminate.
  - repeat constructor. discriminate.
Defined.

(** The loop went through [pre] without returning the key [k]: what is left
    of the draw is positive. *)
Lemma selectLoop_skip (k : string) (pre : list POSValidator) :
  forall (rest : list POSValidator) (r : Z),
  pre <> [] ->
  Forall (fun w =>
            String.string_of_list_byte (POSValidator.PublicKey w) <> k) pre ->
  selectLoop r (pre ++ rest) = Returned k ->
  exists r', 0 < r' /\ inInt64 r' /\ selectLoop r' rest = Returned k.
Proof.
  induction pre as [|a pre IH]; intros rest r Hne Hkeys Hsel; [congruence|].
  apply Forall_cons in Hkeys as [Ha Hkeys]. simpl in Hsel.
  destruct (Z.leb_spec (wrap64 (r - POSValidator.Stake a)) 0) as [Hle|Hgt].
  - injection Hsel as Hsel. contradiction.
  - destruct pre as [|a' pre].
    + exists (wrap64 (r - POSValidator.Stake a)).
      split; [exact Hgt|]. split; [apply wrap64_range | exact Hsel].
    + apply (IH rest _ ltac:(discriminate) Hkeys Hsel).
Qed.

(** X5. A validator that stakes 0 and is not the first one visited is
    never returned, at any draw and whatever the other stakes, provided no
    other validator has its public key. *)
Theorem zero_stake_later_never_selected
    (pre : list POSValidator) (v : POSValidator) (post : list POSValidator)
    (r : Z) :
  pre <> [] -> POSValidator.Stake v = 0 ->
  Forall (fun w => POSValidator.PublicKey w <> POSValidator.PublicKey v)
         (pre ++ post) ->
  selectLoop r (pre ++ v :: post)
  <> Returned (String.string_of_list_byte (POSValidator.PublicKey v)).
Proof.
  intros Hne Hzero Hkeys Hsel. apply Forall_app in Hkeys as [Hpre Hpost].
  apply selectLoop_skip in Hsel as (r' & Hpos & Hin & Hsel); [|exact Hne|].
  - simpl in Hsel. rewrite Hzero, Z.sub_0_r, wrap64_id in Hsel by exact Hin.
    destruct (Z.leb_spec r' 0); [lia|].
    apply selectLoop_Returned in Hsel as (w & Hw & Hk).
    apply string_of_list_byte_inj in Hk.
    rewrite Forall_forall in Hpost. now apply (Hpost w Hw).
  - eapply Forall_impl; [exact Hpre|]. intros w Hw Heq.
    now apply string_of_list_byte_inj in Heq.
Qed.

Lemma zero_stake_later_never_selected_witness :
  selectLoop 0 ([validatorA5] ++ validatorZ :: [])
  <> Returned (String.string_of_list_byte (POSValidator.PublicKey validatorZ)).
Proof.
  apply (zero_stake_later_never_selected [validatorA5] validatorZ [] 0).
  - discriminate.
  - reflexivity.
  - repeat constructor. discriminate.
Defined.

(** X6. On a map that is empty, or in which every validator stakes 0,
    [ProofOfStake] panics inside [rand.Int] (argument not positive): no
    draw is made and the loop is not entered. *)
Theorem ProofOfStake_no_stake_panics
    (validators : gmap string POSValidator) (randInt : Z -> error + Z)
    (order1 order2 : list POSValidator) :
  ranges validators order1 ->
  (forall key v, validators !! key = Some v -> POSValidator.Stake v = 0) ->
  ProofOfStake randInt order1 order2 = Panicked RandIntNonPositive.
Proof.
  intros H1 Hzero.
  assert (Hall : Forall (fun v => POSValidator.Stake v = 0) order1).
  { apply Forall_forall. intros v Hv.
    destruct (ranges_lookup validators order1 v H1 Hv) as [key Hkey].
    now apply (Hzero key). }
  assert (Hsum : sumStake order1 = 0).
  { clear -Hall. induction Hall as [|v l Hv _ IH]; simpl; lia. }
  unfold ProofOfStake. rewrite totalStake_sum, Hsum. reflexivity.
Qed.

Lemma ProofOfStake_no_stake_panics_witness :
  ProofOfStake (fun _ => inr 0) [] [] = Panicked RandIntNonPositive.
Proof.
  apply (ProofOfStake_no_stake_panics ∅ (fun _ => inr 0) [] []).
  - unfold ranges. now rewrite map_to_list_empty.
  - intros key v Hkey. now rewrite lookup_empty in Hkey.
Defined.

(** ** transaction.go: hashing and construction *)

(** X8. The id of a transaction built by [NewTransaction], its output and
    the sender key it records depend on the private key through its [X]
    coordinate only, and not on the signature: two keys with the same [X]
    (whatever [Y] and [D]) and two different signers yield the same id for
    the same recipient and amount. *)
Theorem NewTransaction_id_from_X
    (sha256 : list byte -> list byte)
    (sign1 sign2 : PrivateKey -> list byte -> error + Z * Z)
    (key1 key2 : PrivateKey) (recipient : list byte) (amount : Z)
    (tx1 tx2 : Transaction) :
  PrivateKey.X key1 = PrivateKey.X key2 ->
  NewTransaction sha256 sign1 key1 recipient amount = Returned tx1 ->
  NewTransaction sha256 sign2 key2 recipient amount = Returned tx2 ->
  Transaction.ID tx1 = Transaction.ID tx2 /\
  Transaction.Output tx1 = Transaction.Output tx2 /\
  map TxInput.PublicKey (Transaction.Input tx1)
  = map TxInput.PublicKey (Transaction.Input tx2).
Proof.
  intros HX. rewrite !NewTransaction_eq. unfold transferData. rewrite HX.
  destruct (sign1 _ _) as [e1|[r1 s1]]; [discriminate|].
  destruct (sign2 _ _) as [e2|[r2 s2]]; [discriminate|].
  intros [= <-] [= <-]. repeat split.
Qed.

Lemma NewTransaction_id_from_X_witness :
  Transaction.ID
    (Transaction.Build (transferData keyS recipientR 10)
       [TxInput.Build (bigBytes 1 ++ bigBytes 2) (bigBytes 83)]
       [TxOutput.Build 10 recipientR])
  = Transaction.ID
      (Transaction.Build (transferData keyS' recipientR 10)
         [TxInput.Build (bigBytes 3 ++ bigBytes 4) (bigBytes 83)]
         [TxOutput.Build 10 recipientR]).
Proof.
  apply (NewTransaction_id_from_X idHash signOnes signTwos keyS keyS'
           recipientR 10).
  - reflexivity.
  - reflexivity.
  - reflexivity.
Defined.

(** X9. The three parts of the hashed bytes are joined without separator
    or length: two transactions whose sender key followed by recipient key
    give the same byte string, and that transfer the same value, have the
    same hash, wherever the sender key ends. *)
Theorem hashTransaction_field_boundary
    (sha256 : list byte -> list byte)
    (id1 id2 sig1 sig2 sender1 sender2 recipient1 recipient2 : list byte)
    (ins1 ins2 : list TxInput) (outs1 outs2 : list TxOutput) (value : Z) :
  sender1 ++ recipient1 = sender2 ++ recipient2 ->
  hashTransaction sha256
    (Transaction.Build id1 (TxInput.Build sig1 sender1 :: ins1)
                           (TxOutput.Build value recipient1 :: outs1))
  = hashTransaction sha256
      (Transaction.Build id2 (TxInput.Build sig2 sender2 :: ins2)
                             (TxOutput.Build value recipient2 :: outs2)).
Proof.
  intros Heq. rewrite !hashTransaction_cons. simpl.
  now rewrite !app_assoc, Heq.
Qed.

Lemma hashTransaction_field_boundary_witness :
  hashTransaction idHash
    (Transaction.Build [] [TxInput.Build [] [Byte.x41; Byte.x42]]
                          [TxOutput.Build 10 [Byte.x43]])
  = hashTransaction idHash
      (Transaction.Build [] [TxInput.Build [] [Byte.x41]]
                            [TxOutput.Build 10 [Byte.x42; Byte.x43]]).
Proof.
  apply (hashTransaction_field_boundary idHash [] [] [] []
           [Byte.x41; Byte.x42] [Byte.x41] [Byte.x43] [Byte.x42; Byte.x43]).
  reflexivity.
Defined.

(** *** The bytes that stand for the amount *)

Lemma byte_of_Z_inj (a b : Z) :
  0 <= a < 256 -> 0 <= b < 256 -> byte_of_Z a = byte_of_Z b -> a = b.
Proof.
  intros Ha Hb Heq. apply (f_equal Z_of_byte) in Heq.
  now rewrite !Z_of_byte_of_Z in Heq.
Qed.

(** A property checked on every number below a small bound. *)
Lemma below_bound (P : Z -> bool) (n : Z) :
  forallb P (seqZ 0 n) = true -> forall x, 0 <= x < n -> P x = true.
Proof.
  intros Hall x Hx. rewrite forallb_forall in Hall. apply Hall.
  apply list_elem_of_In, elem_of_seqZ. lia.
Qed.

(** Setting the marker bits of a UTF-8 byte adds them. *)
Lemma lor_marker (marker bound x : Z) :
  forallb (fun x => Z.lor marker x =? marker + x) (seqZ 0 bound) = true ->
  0 <= x < bound -> Z.lor marker x = marker + x.
Proof.
  intros Hall Hx. apply Z.eqb_eq.
  exact (below_bound (fun x => Z.lor marker x =? marker + x) bound Hall x Hx).
Qed.

Lemma land_0x3F (x : Z) : Z.land x 0x3F = x mod 64.
Proof. change 0x3F with (Z.ones 6). now rewrite Z.land_ones by lia. Qed.

(** The four shapes of [encodeRune] on code points, in arithmetic. *)
Lemma encodeRune_1 (r : Z) : 0 <= r <= 0x7F -> encodeRune r = [byte_of_Z r].
Proof.
  intros Hr. unfold encodeRune.
  destruct (Z.leb_spec 0 r); [|lia]. destruct (Z.leb_spec r 0x7F); [|lia].
  reflexivity.
Qed.

Lemma encodeRune_2 (r : Z) :
  0x7F < r <= 0x7FF ->
  encodeRune r = [byte_of_Z (192 + r / 64); byte_of_Z (128 + r mod 64)].
Proof.
  intros Hr. unfold encodeRune.
  destruct (Z.leb_spec 0 r); [|lia]. destruct (Z.leb_spec r 0x7F); [lia|].
  destruct (Z.leb_spec r 0x7FF); [|lia]. cbn [andb].
  rewrite land_0x3F, Z.shiftr_div_pow2 by lia. change (2 ^ 6) with 64.
  rewrite (lor_marker 0xC0 32), (lor_marker 0x80 64);
    [reflexivity | reflexivity | | reflexivity |];
    Z.div_mod_to_equations; lia.
Qed.

Lemma encodeRune_3 (r : Z) :
  0x7FF < r <= 0xFFFF -> notCodePoint r = false ->
  encodeRune r = [byte_of_Z (224 + r / 4096);
                  byte_of_Z (128 + (r / 64) mod 64);
                  byte_of_Z (128 + r mod 64)].
Proof.
  intros Hr Hvalid. unfold encodeRune. fold (notCodePoint r). rewrite Hvalid.
  destruct (Z.leb_spec 0 r); [|lia]. destruct (Z.leb_spec r 0x7F); [lia|].
  destruct (Z.leb_spec r 0x7FF); [lia|]. cbn [andb].
  destruct (Z.leb_spec r 0xFFFF); [|lia].
  rewrite !land_0x3F, !Z.shiftr_div_pow2 by lia.
  change (2 ^ 6) with 64. change (2 ^ 12) with 4096.
  rewrite (lor_marker 0xE0 16), !(lor_marker 0x80 64);
    [reflexivity | reflexivity | | reflexivity | | reflexivity |];
    Z.div_mod_to_equations; lia.
Qed.

Lemma encodeRune_4 (r : Z) :
  0xFFFF < r <= 0x10FFFF ->
  encodeRune r = [byte_of_Z (240 + r / 262144);
                  byte_of_Z (128 + (r / 4096) mod 64);
                  byte_of_Z (128 + (r / 64) mod 64);
                  byte_of_Z (128 + r mod 64)].
Proof.
  intros Hr. unfold encodeRune.
  destruct (Z.leb_spec 0 r); [|lia]. destruct (Z.leb_spec r 0x7F); [lia|].
  destruct (Z.leb_spec r 0x7FF); [lia|]. cbn [andb].
  destruct (Z.ltb_spec r 0); [lia|]. destruct (Z.ltb_spec 0x10FFFF r); [lia|].
  destruct (Z.leb_spec 0xD800 r); [|lia]. destruct (Z.leb_spec r 0xDFFF); [lia|].
  cbn [andb orb]. destruct (Z.leb_spec r 0xFFFF); [lia|].
  rewrite !land_0x3F, !Z.shiftr_div_pow2 by lia.
  change (2 ^ 6) with 64. change (2 ^ 12) with 4096.
  change (2 ^ 18) with 262144.
  rewrite (lor_marker 0xF0 8), !(lor_marker 0x80 64);
    [reflexivity | reflexivity | | reflexivity | | reflexivity | | reflexivity |];
    Z.div_mod_to_equations; lia.
Qed.

Lemma notCodePoint_false (r : Z) :
  notCodePoint r = false <->
  0 <= r <= 0x10FFFF /\ (r < 0xD800 \/ 0xDFFF < r).
Proof.
  unfold notCodePoint.
  destruct (Z.ltb_spec r 0), (Z.ltb_spec 0x10FFFF r),
    (Z.leb_spec 0xD800 r), (Z.leb_spec r 0xDFFF); simpl;
    split; (discriminate || lia || (intros; reflexivity)).
Qed.

Lemma encodeRune_notCodePoint (r : Z) :
  notCodePoint r = true -> encodeRune r = [Byte.xef; Byte.xbf; Byte.xbd].
Proof.
  intros Hbad. unfold encodeRune. fold (notCodePoint r). rewrite Hbad.
  unfold notCodePoint in Hbad.
  destruct (Z.leb_spec 0 r), (Z.leb_spec r 0x7F), (Z.leb_spec r 0x7FF);
    cbn [andb]; try reflexivity.
  all: destruct (Z.ltb_spec r 0), (Z.ltb_spec 0x10FFFF r),
         (Z.leb_spec 0xD800 r), (Z.leb_spec r 0xDFFF);
       simpl in Hbad; (discriminate Hbad || lia).
Qed.

Lemma amountBytes_hashedRune (v : Z) :
  amountBytes v = encodeRune (hashedRune v).
Proof.
  unfold amountBytes, hashedRune.
  destruct (notCodePoint (wrap32 v)) eqn:Hbad; [|reflexivity].
  now rewrite encodeRune_notCodePoint.
Qed.

Lemma encodeRune_inj (r1 r2 : Z) :
  notCodePoint r1 = false -> notCodePoint r2 = false ->
  encodeRune r1 = encodeRune r2 -> r1 = r2.
Proof.
  intros H1 H2.
  pose proof (proj1 (notCodePoint_false r1) H1) as [Hr1 _].
  pose proof (proj1 (notCodePoint_false r2) H2) as [Hr2 _].
  assert (Hshape : forall r, 0 <= r <= 0x10FFFF ->
            r <= 0x7F \/ 0x7F < r <= 0x7FF \/ 0x7FF < r <= 0xFFFF
            \/ 0xFFFF < r) by (intros; lia).
  destruct (Hshape r1 Hr1) as [A1|[A1|[A1|A1]]];
    destruct (Hshape r2 Hr2) as [A2|[A2|[A2|A2]]];
    rewrite ?(encodeRune_1 r1), ?(encodeRune_2 r1), ?(encodeRune_3 r1),
      ?(encodeRune_4 r1), ?(encodeRune_1 r2), ?(encodeRune_2 r2),
      ?(encodeRune_3 r2), ?(encodeRune_4 r2) by (assumption || lia);
    intros Heq; try discriminate Heq.
  - injection Heq as Heq. apply byte_of_Z_inj in Heq; lia.
  - injection Heq as Ha Hb.
    apply byte_of_Z_inj in Ha, Hb; Z.div_mod_to_equations; lia.
  - injection Heq as Ha Hb Hc.
    apply byte_of_Z_inj in Ha, Hb, Hc; Z.div_mod_to_equations; lia.
  - injection Heq as Ha Hb Hc Hd.
    apply byte_of_Z_inj in Ha, Hb, Hc, Hd; Z.div_mod_to_equations; lia.
Qed.

Lemma hashedRune_valid (v : Z) : notCodePoint (hashedRune v) = false.
Proof.
  unfold hashedRune. destruct (notCodePoint (wrap32 v)) eqn:Hbad;
    [reflexivity | exact Hbad].
Qed.

(** X10. Which amounts are hashed alike: two amounts give the same bytes
    to [hashTransaction] exactly when they stand for the same code point,
    that is when they agree after being cut to 32 bits and, if the result is
    not a code point (negative, above U+10FFFF, or a surrogate half), replaced
    by U+FFFD.  In particular amounts between 0 and 55295 are all hashed
    differently. *)
Theorem amountBytes_eq_iff (v1 v2 : Z) :
  (amountBytes v1 = amountBytes v2 <-> hashedRune v1 = hashedRune v2) /\
  (0 <= v1 < 0xD800 -> 0 <= v2 < 0xD800 ->
   amountBytes v1 = amountBytes v2 -> v1 = v2).
Proof.
  assert (Hiff : amountBytes v1 = amountBytes v2
                 <-> hashedRune v1 = hashedRune v2).
  { rewrite !amountBytes_hashedRune. split.
    - apply encodeRune_inj; apply hashedRune_valid.
    - now intros ->. }
  split; [exact Hiff|].
  intros Hv1 Hv2 Heq. apply Hiff in Heq.
  assert (Hsmall : forall v, 0 <= v < 0xD800 -> hashedRune v = v).
  { intros v Hv. unfold hashedRune, wrap32.
    rewrite Z.mod_small by lia.
    replace (v + 2 ^ 31 - 2 ^ 31) with v by lia.
    assert (Hok : notCodePoint v = false) by (apply notCodePoint_false; lia).
    now rewrite Hok. }
  now rewrite !Hsmall in Heq.
Qed.

Lemma amountBytes_eq_iff_witness : amountBytes 55296 = amountBytes (-7).
Proof.
  apply (proj1 (amountBytes_eq_iff 55296 (-7))). reflexivity.
Defined.

(** *** The signature bytes *)

Lemma byte_of_Z_of_byte (b : byte) : byte_of_Z (Z_of_byte b) = b.
Proof.
  unfold byte_of_Z, Z_of_byte.
  pose proof (Byte.to_N_bounded b) as Hb.
  rewrite Z.mod_small by lia. rewrite N2Z.id. now rewrite Byte.of_to_N.
Qed.

Lemma Z_of_byte_pos (b : byte) : b <> Byte.x00 -> 0 < Z_of_byte b.
Proof.
  intros Hb. pose proof (Z_of_byte_range b) as Hr.
  destruct (Z.eq_dec (Z_of_byte b) 0) as [Hz|]; [|lia].
  exfalso. apply Hb. rewrite <- (byte_of_Z_of_byte b), Hz. reflexivity.
Qed.

(** With enough fuel the digits do not depend on the fuel. *)
Lemma bigEndian_fuel (f1 : nat) : forall (f2 : nat) (n : Z) (acc : list byte),
  0 <= n < 256 ^ Z.of_nat f1 -> n < 256 ^ Z.of_nat f2 ->
  bigEndian f1 n acc = bigEndian f2 n acc.
Proof.
  induction f1 as [|f1 IH]; intros f2 n acc H1 H2.
  - simpl in H1. replace n with 0 by lia. now destruct f2.
  - simpl. destruct (Z.leb_spec n 0) as [Hle|Hgt].
    + replace n with 0 by lia. now destruct f2.
    + destruct f2 as [|f2]; [simpl in H2; lia|]. simpl.
      destruct (Z.leb_spec n 0); [lia|].
      rewrite Nat2Z.inj_succ, Z.pow_succ_r in H1, H2 by lia.
      apply IH.
      * split; [apply Z.div_pos; lia | apply Z.div_lt_upper_bound; lia].
      * apply Z.div_lt_upper_bound; lia.
Qed.

Lemma bigEndian_acc (fuel : nat) : forall (n : Z) (acc : list byte),
  bigEndian fuel n acc = bigEndian fuel n [] ++ acc.
Proof.
  induction fuel as [|fuel IH]; intros n acc; simpl; [reflexivity|].
  destruct (n <=? 0); [reflexivity|].
  rewrite IH, (IH _ [_]), <- app_assoc. reflexivity.
Qed.

Lemma bigEndian_step (fuel : nat) (n : Z) (acc : list byte) :
  0 < n ->
  bigEndian (S fuel) n acc
  = bigEndian fuel (n / 256) (byte_of_Z (n mod 256) :: acc).
Proof. intros Hn. simpl. destruct (Z.leb_spec n 0); [lia | reflexivity]. Qed.

Lemma bigBytes_snoc (n d : Z) :
  0 <= n -> 0 <= d < 256 -> 0 < n * 256 + d ->
  bigBytes (n * 256 + d) = bigBytes n ++ [byte_of_Z d].
Proof.
  intros Hn Hd Hpos. unfold bigBytes.
  rewrite !Z.abs_eq by lia. set (m := n * 256 + d).
  rewrite (bigEndian_step _ m) by lia.
  assert (Hdiv : m / 256 = n) by (subst m; Z.div_mod_to_equations; lia).
  assert (Hmod : m mod 256 = d) by (subst m; Z.div_mod_to_equations; lia).
  rewrite Hdiv, Hmod, bigEndian_acc. f_equal.
  apply bigEndian_fuel.
  - split; [lia|].
    pose proof (bigBytes_fuel m ltac:(lia)) as Hm.
    rewrite Nat2Z.inj_succ, Z.pow_succ_r in Hm by lia. lia.
  - now apply bigBytes_fuel.
Qed.

Lemma fromBigEndian_snoc (l : list byte) (b : byte) :
  Wire.fromBigEndian (l ++ [b]) = Wire.fromBigEndian l * 256 + Z_of_byte b.
Proof. unfold Wire.fromBigEndian. now rewrite fold_left_app. Qed.

Lemma fromBigEndian_nonneg (l : list byte) : 0 <= Wire.fromBigEndian l.
Proof.
  induction l as [|b l IH] using rev_ind; [reflexivity|].
  rewrite fromBigEndian_snoc. pose proof (Z_of_byte_range b). lia.
Qed.

Lemma noLeadingZero_snoc (l : list byte) (b : byte) :
  l <> [] -> noLeadingZero (l ++ [b]) -> noLeadingZero l.
Proof. destruct l; [congruence | intros _ H; exact H]. Qed.

Lemma fromBigEndian_pos (l : list byte) :
  l <> [] -> noLeadingZero l -> 0 < Wire.fromBigEndian l.
Proof.
  induction l as [|b l IH] using rev_ind; [congruence|]. intros _ Hl.
  rewrite fromBigEndian_snoc. pose proof (Z_of_byte_range b).
  destruct l as [|a l].
  - simpl in *. pose proof (Z_of_byte_pos b Hl). unfold Wire.fromBigEndian.
    simpl. lia.
  - assert (0 < Wire.fromBigEndian (a :: l)).
    { apply IH; [discriminate|]. exact Hl. }
    lia.
Qed.

(** [Bytes()] returns every byte string without leading zero, for the
    number it spells. *)
Lemma bigBytes_fromBigEndian (l : list byte) :
  noLeadingZero l -> bigBytes (Wire.fromBigEndian l) = l.
Proof.
  induction l as [|b l IH] using rev_ind; intros Hl; [reflexivity|].
  rewrite fromBigEndian_snoc. pose proof (Z_of_byte_range b).
  pose proof (fromBigEndian_nonneg l).
  rewrite bigBytes_snoc; [| lia | lia |].
  - rewrite byte_of_Z_of_byte. f_equal.
    destruct l as [|a l]; [reflexivity|]. apply IH. exact Hl.
  - destruct l as [|a l].
    + simpl in Hl. pose proof (Z_of_byte_pos b Hl).
      unfold Wire.fromBigEndian. simpl. lia.
    + assert (0 < Wire.fromBigEndian (a :: l)).
      { apply fromBigEndian_pos; [discriminate | exact Hl]. }
      lia.
Qed.

(** X11. The signature stored in a transaction is [r.Bytes()] followed by
    [s.Bytes()] with nothing in between: for byte strings [l1] and [l2]
    without leading zero, signing with the numbers they spell stores
    [l1 ++ l2]; so two pairs [(r, s)] obtained by cutting one byte string at
    two places give the same transaction, and the pair cannot be read back
    from the signature. *)
Theorem NewTransaction_signature_boundary
    (sha256 : list byte -> list byte) (privateKey : PrivateKey)
    (recipient : list byte) (amount : Z) (l1 l2 l1' l2' : list byte) :
  noLeadingZero l1 -> noLeadingZero l2 ->
  noLeadingZero l1' -> noLeadingZero l2' ->
  l1 ++ l2 = l1' ++ l2' ->
  (exists tx,
      NewTransaction sha256
        (signWith (Wire.fromBigEndian l1) (Wire.fromBigEndian l2))
        privateKey recipient amount = Returned tx /\
      map TxInput.Signature (Transaction.Input tx) = [l1 ++ l2]) /\
  NewTransaction sha256
    (signWith (Wire.fromBigEndian l1) (Wire.fromBigEndian l2))
    privateKey recipient amount
  = NewTransaction sha256
      (signWith (Wire.fromBigEndian l1') (Wire.fromBigEndian l2'))
      privateKey recipient amount.
Proof.
  intros H1 H2 H1' H2' Heq. rewrite !NewTransaction_eq. unfold signWith.
  rewrite !bigBytes_fromBigEndian by assumption. split.
  - eexists. split; reflexivity.
  - now rewrite Heq.
Qed.

Lemma NewTransaction_signature_boundary_witness :
  NewTransaction idHash (signWith 1 258) keyS recipientR 10
  = NewTransaction idHash (signWith 257 2) keyS recipientR 10.
Proof.
  apply (NewTransaction_signature_boundary idHash keyS recipientR 10
           [Byte.x01] [Byte.x01; Byte.x02] [Byte.x01; Byte.x01] [Byte.x02]).
  - discriminate.
  - discriminate.
  - discriminate.
  - discriminate.
  - reflexivity.
Defined.

(** ** block.go: what the block hash commits to *)

(** X12. The block hash does not record where the previous hash ends and
    where each transaction hash begins: two blocks for which the previous
    hash followed by the transaction hashes is the same byte string, with
    the same timestamp text, have the same computed hash (for instance a
    block and the block without its first transaction whose previous hash
    is extended by that transaction's hash). *)
Theorem calculateHash_boundaries {Time : Type}
    (timeString : Time -> list byte) (sha256 : list byte -> list byte)
    (txHash : Transaction -> list byte) (b1 b2 : Block Time) :
  Block.PrevBlockHash b1 ++ concat (map txHash (Block.Transactions b1))
  = Block.PrevBlockHash b2 ++ concat (map txHash (Block.Transactions b2)) ->
  timeString (Block.Timestamp b1) = timeString (Block.Timestamp b2) ->
  calculateHash timeString sha256 txHash b1
  = calculateHash timeString sha256 txHash b2.
Proof.
  intros Hbytes Htime. unfold calculateHash.
  now rewrite !blockPreimage_eq, !app_assoc, Hbytes, Htime.
Qed.

Lemma calculateHash_boundaries_witness :
  calculateHash secondsText idHash Hash
    (Block.Build 1700000000 [txOne; txTwo] [Byte.x50] [] [] 0)
  = calculateHash secondsText idHash Hash
      (Block.Build 1700000000 [txTwo] [Byte.x50; Byte.x01; Byte.x01] [] [] 0).
Proof.
  apply (calculateHash_boundaries secondsText idHash Hash
           (Block.Build 1700000000 [txOne; txTwo] [Byte.x50] [] [] 0)
           (Block.Build 1700000000 [txTwo] [Byte.x50; Byte.x01; Byte.x01] [] [] 0)).
  - reflexivity.
  - reflexivity.
Defined.

(** X13. The block returned by [NewBlock] carries the hash of its own
    fields: recomputing [calculateHash] on it gives the stored [Hash], and
    its [Nonce] is 0.  Under a hash without collisions the stored hash no
    longer matches once the previous hash is replaced by a different one of
    the same length, or the timestamp by one with a different text. *)
Theorem NewBlock_hash_verifies {Time : Type}
    (timeString : Time -> list byte) (sha256 : list byte -> list byte)
    (txHash : Transaction -> list byte) (now : Time)
    (transactions : list Transaction) (prevBlockHash validator : list byte) :
  let b := NewBlock timeString sha256 txHash now transactions prevBlockHash
                    validator in
  calculateHash timeString sha256 txHash b = Block.Hash b /\
  Block.Nonce b = 0 /\
  ((forall x y, sha256 x = sha256 y -> x = y) ->
   (forall prev',
       length prev' = length prevBlockHash -> prev' <> prevBlockHash ->
       calculateHash timeString sha256 txHash (withPrevBlockHash b prev')
       <> Block.Hash (withPrevBlockHash b prev')) /\
   (forall now',
       timeString now' <> timeString now ->
       calculateHash timeString sha256 txHash
         (Block.Build now' (Block.Transactions b) (Block.PrevBlockHash b)
                      (Block.Hash b) (Block.Validator b) (Block.Nonce b))
       <> Block.Hash b)).
Proof.
  cbv zeta. split; [reflexivity|]. split; [reflexivity|].
  intros Hinj. split.
  - intros prev' Hlen Hne Heq. simpl in Heq. unfold calculateHash in Heq.
    apply Hinj in Heq. rewrite !blockPreimage_eq in Heq. simpl in Heq.
    apply app_inj_1 in Heq as [Heq _]; [contradiction | exact Hlen].
  - intros now' Hne Heq. simpl in Heq. unfold calculateHash in Heq.
    apply Hinj in Heq. rewrite !blockPreimage_eq in Heq. simpl in Heq.
    apply app_inv_head in Heq. apply app_inv_head in Heq. contradiction.
Qed.

Lemma NewBlock_hash_verifies_witness :
  calculateHash secondsText idHash Hash (withPrevBlockHash blockByV [Byte.x51])
  <> Block.Hash (withPrevBlockHash blockByV [Byte.x51]).
Proof.
  pose proof (NewBlock_hash_verifies secondsText idHash Hash 1700000000 []
                [Byte.x50] [Byte.x56]) as (_ & _ & Htamper).
  apply Htamper.
  - intros x y Hxy. exact Hxy.
  - reflexivity.
  - discriminate.
Defined.

(** ** Construction, storage and hashing together *)

(** X14. A transaction built by [NewTransaction] still carries the hash of
    its own fields after it was serialized and read back: given of
    encoding/gob that it encodes every [Transaction] value and decodes what it
    encoded, [Serialize] returns bytes, [DeserializeTransaction] returns the
    transaction from them, and [hashTransaction] of what was read back is
    the stored id. *)
Theorem NewTransaction_survives_storage
    (G : Gob Transaction) (sha256 : list byte -> list byte)
    (ecdsaSign : PrivateKey -> list byte -> error + Z * Z)
    (privateKey : PrivateKey) (recipient : list byte) (amount : Z)
    (tx : Transaction) :
  GobLaw G goTransaction ->
  NewTransaction sha256 ecdsaSign privateKey recipient amount = Returned tx ->
  goTransaction tx ->
  exists data,
    Transaction_Serialize tx = Returned data /\
    DeserializeTransaction data = Returned tx /\
    (let* tx' := DeserializeTransaction data in hashTransaction sha256 tx')
    = Returned (Transaction.ID tx).
Proof.
  intros [Henc Hdec] Hnew Hgo.
  destruct (Henc tx Hgo) as [data Hdata]. exists data.
  assert (Hdes : DeserializeTransaction data = Returned tx).
  { unfold DeserializeTransaction. now rewrite (Hdec tx data Hdata). }
  split; [unfold Transaction_Serialize; now rewrite Hdata|].
  split; [exact Hdes|]. rewrite Hdes. simpl.
  rewrite NewTransaction_eq in Hnew.
  destruct (ecdsaSign _ _) as [err|[r s]]; [discriminate|].
  injection Hnew as <-. reflexivity.
Qed.

Lemma NewTransaction_survives_storage_witness :
  exists data,
    Transaction_Serialize (gobTransaction := Wire.gobTransaction)
      (Transaction.Build (transferData keyS recipientR 10)
         [TxInput.Build (bigBytes 1 ++ bigBytes 2) (bigBytes 83)]
         [TxOutput.Build 10 recipientR]) = Returned data /\
    DeserializeTransaction (gobTransaction := Wire.gobTransaction) data
    = Returned
        (Transaction.Build (transferData keyS recipientR 10)
           [TxInput.Build (bigBytes 1 ++ bigBytes 2) (bigBytes 83)]
           [TxOutput.Build 10 recipientR]) /\
    (let* tx' := DeserializeTransaction (gobTransaction := Wire.gobTransaction) data in
     hashTransaction idHash tx')
    = Returned (transferData keyS recipientR 10).
Proof.
  apply (NewTransaction_survives_storage Wire.gobTransaction idHash signOnes
           keyS recipientR 10).
  - exact wire_Transaction_law.
  - reflexivity.
  - unfold goTransaction, goTxInput, goTxOutput, goLen, inInt64,
      minInt64, maxInt64.
    repeat first [split | constructor]; simpl; lia.
Defined.

(** ** consensus.go: the share of a validator visited later *)

Lemma sumStake_app (l1 l2 : list POSValidator) :
  sumStake (l1 ++ l2) = sumStake l1 + sumStake l2.
Proof. induction l1 as [|a l1 IH]; simpl; lia. Qed.

Lemma sumStake_nonneg (l : list POSValidator) :
  Forall (fun a => 0 <= POSValidator.Stake a) l -> 0 <= sumStake l.
Proof. induction 1; simpl; lia. Qed.

(** A draw that the stakes of [pre] cover is answered inside [pre]. *)
Lemma selectLoop_within (pre : list POSValidator) :
  forall (rest : list POSValidator) (r : Z),
  pre <> [] -> Forall (fun a => 0 <= POSValidator.Stake a) pre ->
  sumStake pre <= maxInt64 -> 0 <= r <= sumStake pre ->
  exists w : POSValidator, w ∈ pre /\
    selectLoop r (pre ++ rest)
    = Returned (String.string_of_list_byte (POSValidator.PublicKey w)).
Proof.
  induction pre as [|a pre IH]; intros rest r Hne Hpre Hmax Hr; [congruence|].
  apply Forall_cons in Hpre as [Ha Hpre]. simpl in *.
  pose proof (sumStake_nonneg pre Hpre) as Hsum.
  rewrite wrap64_id by (unfold inInt64, minInt64, maxInt64 in *; lia).
  destruct (Z.leb_spec (r - POSValidator.Stake a) 0) as [Hle|Hgt].
  - exists a. split; [left | reflexivity].
  - destruct pre as [|a' pre]; [simpl in *; lia|].
    destruct (IH rest (r - POSValidator.Stake a)) as (w & Hw & Hsel);
      [discriminate | exact Hpre | unfold maxInt64 in *; lia | lia |].
    exists w. split; [now right | exact Hsel].
Qed.

(** A draw above the stakes of [pre] passes [pre]. *)
Lemma selectLoop_beyond (pre : list POSValidator) :
  forall (rest : list POSValidator) (r : Z),
  Forall (fun a => 0 <= POSValidator.Stake a) pre ->
  inInt64 r -> sumStake pre < r ->
  selectLoop r (pre ++ rest) = selectLoop (r - sumStake pre) rest.
Proof.
  induction pre as [|a pre IH]; intros rest r Hpre Hin Hr; simpl in *.
  - now rewrite Z.sub_0_r.
  - apply Forall_cons in Hpre as [Ha Hpre].
    pose proof (sumStake_nonneg pre Hpre) as Hsum.
    rewrite wrap64_id by (unfold inInt64, minInt64, maxInt64 in *; lia).
    destruct (Z.leb_spec (r - POSValidator.Stake a) 0); [lia|].
    rewrite IH; [f_equal; lia | exact Hpre | | lia].
    unfold inInt64, minInt64, maxInt64 in *. lia.
Qed.

(** Filtering the numbers below [n] by a property that holds on an
    interval. *)
Lemma filter_seqZ_interval (P : Z -> Prop) `{forall r, Decision (P r)}
    (lo hi n : Z) :
  0 <= lo ->
  (forall r, 0 <= r < n -> P r <-> lo <= r < hi) ->
  filter P (seqZ 0 n) = seqZ lo (Z.min hi n - lo).
Proof.
  intros Hlo HP.
  destruct (Z.le_gt_cases (Z.min hi n) lo) as [Hempty|Hsome].
  - rewrite (seqZ_nil lo) by lia. apply filter_Forall_none.
    apply Forall_forall. intros r Hr. apply elem_of_seqZ in Hr.
    rewrite HP by lia. lia.
  - set (m := Z.min hi n) in *.
    replace n with (lo + ((m - lo) + (n - m))) at 1 by lia.
    rewrite !seqZ_app by lia. rewrite !filter_app.
    rewrite (filter_Forall_none _ (seqZ 0 lo)),
      (filter_Forall_all _ (seqZ (0 + lo) (m - lo))),
      (filter_Forall_none _ (seqZ (0 + lo + (m - lo)) (n - m))).
    + now rewrite app_nil_r.
    + apply Forall_forall. intros r Hr. apply elem_of_seqZ in Hr.
      rewrite HP by lia. lia.
    + apply Forall_forall. intros r Hr. apply elem_of_seqZ in Hr.
      apply HP; lia.
    + apply Forall_forall. intros r Hr. apply elem_of_seqZ in Hr.
      rewrite HP by lia. lia.
Qed.

(** X15. With stakes that are not negative and do not overflow, a
    validator that is not visited first (and whose key is its own) is
    returned exactly at the draws [c + 1, ..., c + stake] that are below the
    total, [c] being the stake of the validators visited before it: its
    stake in number, except that the draw equal to the total does not exist,
    so the validator that holds the last stake gets one draw less. *)
Theorem winningDraws_later_exact
    (pre : list POSValidator) (v : POSValidator) (post : list POSValidator) :
  pre <> [] ->
  Forall (fun a => 0 <= POSValidator.Stake a) (pre ++ v :: post) ->
  inInt64 (sumStake (pre ++ v :: post)) ->
  Forall (fun w => POSValidator.PublicKey w <> POSValidator.PublicKey v)
         (pre ++ post) ->
  winningDraws (pre ++ v :: post) (POSValidator.PublicKey v)
  = seqZ (sumStake pre + 1)
         (Z.min (sumStake pre + POSValidator.Stake v + 1)
                (sumStake (pre ++ v :: post))
          - (sumStake pre + 1)).
Proof.
  intros Hne Hstakes Hin Hkeys. unfold winningDraws.
  rewrite totalStake_exact by exact Hin.
  apply Forall_app in Hstakes as [Hpre Hrest].
  apply Forall_cons in Hrest as [Hv Hpost].
  apply Forall_app in Hkeys as [Hkpre Hkpost].
  pose proof (sumStake_nonneg pre Hpre) as Hc.
  pose proof (sumStake_nonneg post Hpost) as Hp.
  rewrite sumStake_app in *. simpl sumStake in *.
  unfold inInt64, minInt64, maxInt64 in Hin.
  apply filter_seqZ_interval; [lia|]. intros r Hr.
  assert (Hrin : inInt64 r) by (unfold inInt64, minInt64, maxInt64; lia).
  split.
  - intros Hsel.
    destruct (Z.le_gt_cases r (sumStake pre)) as [Hlow|Hhigh].
    + destruct (selectLoop_within pre (v :: post) r Hne Hpre
                  ltac:(unfold maxInt64; lia) ltac:(lia))
        as (w & Hw & Hselw).
      rewrite Hselw in Hsel. injection Hsel as Hsel.
      apply string_of_list_byte_inj in Hsel.
      rewrite Forall_forall in Hkpre. now destruct (Hkpre w Hw).
    + split; [lia|].
      destruct (Z.le_gt_cases r (sumStake pre + POSValidator.Stake v));
        [lia|].
      rewrite selectLoop_beyond in Hsel by (assumption || lia).
      simpl in Hsel.
      rewrite wrap64_id in Hsel
        by (unfold inInt64, minInt64, maxInt64; lia).
      destruct (Z.leb_spec (r - sumStake pre - POSValidator.Stake v) 0);
        [lia|].
      apply selectLoop_Returned in Hsel as (w & Hw & Hk).
      apply string_of_list_byte_inj in Hk.
      rewrite Forall_forall in Hkpost. now destruct (Hkpost w Hw).
  - intros Hrange.
    apply selectLoop_cumulative; try assumption; unfold maxInt64; lia.
Qed.

Lemma winningDraws_later_exact_witness :
  winningDraws ([validatorA] ++ validatorB :: [])
               (POSValidator.PublicKey validatorB)
  = seqZ (70 + 1) (Z.min (70 + 30 + 1) 100 - (70 + 1)).
Proof.
  apply (winningDraws_later_exact [validatorA] validatorB []).
  - discriminate.
  - repeat constructor; discriminate.
  - split; discriminate.
  - repeat constructor. discriminate.
Defined.
